(** * Pebble Says: the round / input state machine of [pebble_says.c]

    A shallow embedding of the game logic of [src/c/pebble_says.c]: the
    file-level statics become a record, every C function that touches them
    becomes a computation in a small state-and-fault monad over a [world]
    made of the statics, the Pebble timer service, and the log of the
    presentation and haptic calls issued so far. *)

From Stdlib Require Import ZArith Lia Bool String DecimalString.
From stdpp Require Import base list.

Local Open Scope Z_scope.

(** ** Constants and enumerations *)

Definition MAX_SEQUENCE : Z := 8.
Definition SHOW_MS : Z := 700.
Definition PAUSE_MS : Z := 300.

Inductive SequenceButton : Type :=
| SEQ_BTN_UP
| SEQ_BTN_SELECT
| SEQ_BTN_DOWN.

(** The integer value of each enumerator. *)
Definition btn_code (b : SequenceButton) : Z :=
  match b with
  | SEQ_BTN_UP => 0
  | SEQ_BTN_SELECT => 1
  | SEQ_BTN_DOWN => 2
  end.

Definition button_name (b : Z) : string :=
  if b =? 0 then "Up"%string
  else if b =? 1 then "Select"%string
  else if b =? 2 then "Down"%string
  else "?"%string.

(** ** Timing policy *)

(** C [int] is 32 bits wide: a difference or product outside the range is
    taken modulo [2 ^ 32] into [-2 ^ 31 .. 2 ^ 31 - 1]. *)
Definition wrap_int (z : Z) : Z :=
  (z + 2147483648) mod 4294967296 - 2147483648.

Definition int_sub (a b : Z) : Z := wrap_int (a - b).
Definition int_mul (a b : Z) : Z := wrap_int (a * b).

(** [calc_show_ms], in the arithmetic of [int]. *)
Definition calc_show_ms (len : Z) : Z :=
  let ms :=
    if len <=? 1 then SHOW_MS
    else if len <=? 3 then int_sub SHOW_MS (int_mul 60 (int_sub len 1))
    else int_sub (int_sub SHOW_MS (int_mul 60 2))
                 (int_mul 35 (int_sub len 3)) in
  if ms <? 200 then 200 else ms.

(** ** Observable effects *)

Inductive vibe : Type := VibeShort | VibeDouble | VibeLong.

(** Calls made to the presentation and haptic collaborators. *)
Inductive effect : Type :=
| FxMessage (msg : string)        (* show_message: text of s_text_layer *)
| FxInfo (txt : string)           (* update_info_layer: text of s_info_layer *)
| FxGlyph (idx : Z) (on : bool)   (* highlight_glyph on glyph layer idx *)
| FxVibe (v : vibe)               (* vibes_*_pulse *)
| FxFlashDirty                    (* layer_mark_dirty(s_flash_layer) *)
| FxLayout (initial_screen : bool) (info_h : Z).  (* apply_layout *)

(** ** The timer service *)

(** What [app_timer_register] was given: the callback and its [void*] data. *)
Inductive callback : Type :=
| CbSequenceTimer
| CbClearGlyph (idx : Z)
| CbClearFeedback
| CbRoundTransition
| CbFlashTick (cycles : Z).

Record AppTimer : Type := mkTimer {
  t_handle : nat;
  t_ms : Z;
  t_cb : callback
}.

(** ** The statics

    C [int]s are integers of [Z]; the cursors and the length stay within
    [0 .. 8] (see [cursors_ok]).  [APP_LOG] writes to the debug log only
    and is left out, except for the reads of [s_sequence] among its
    arguments. *)

Record game : Type := mkGame {
  s_sequence : list Z;          (* int s_sequence[MAX_SEQUENCE] *)
  s_seq_len : Z;
  s_input_index : Z;
  s_showing : bool;
  s_show_index : Z;
  s_show_phase : Z;
  s_game_over : bool;
  s_round : Z;
  s_transitioning : bool;
  s_show_ms_current : Z;
  s_flash_phase : Z;
  s_flash_interval_ms : Z
}.

(** The four [AppTimer *] statics; [None] is [NULL]. *)
Record handles : Type := mkHandles {
  s_sequence_timer : option nat;
  s_feedback_timer : option nat;
  s_transition_timer : option nat;
  s_flash_timer : option nat
}.

Record world : Type := mkWorld {
  gm : game;
  hd : handles;
  pending : list AppTimer;      (* timers registered and neither fired nor cancelled *)
  next_handle : nat;            (* handles are never reused *)
  rand_calls : nat;             (* how many times rand() was called *)
  out : list effect;            (* presentation and haptic calls, oldest first *)
  reads : list (Z * Z)          (* ghost: (index, s_seq_len) at each read of s_sequence *)
}.

Definition set_sequence (v : list Z) (g : game) : game :=
  mkGame v (s_seq_len g) (s_input_index g) (s_showing g) (s_show_index g)
    (s_show_phase g) (s_game_over g) (s_round g) (s_transitioning g)
    (s_show_ms_current g) (s_flash_phase g) (s_flash_interval_ms g).
Definition set_seq_len (v : Z) (g : game) : game :=
  mkGame (s_sequence g) v (s_input_index g) (s_showing g) (s_show_index g)
    (s_show_phase g) (s_game_over g) (s_round g) (s_transitioning g)
    (s_show_ms_current g) (s_flash_phase g) (s_flash_interval_ms g).
Definition set_input_index (v : Z) (g : game) : game :=
  mkGame (s_sequence g) (s_seq_len g) v (s_showing g) (s_show_index g)
    (s_show_phase g) (s_game_over g) (s_round g) (s_transitioning g)
    (s_show_ms_current g) (s_flash_phase g) (s_flash_interval_ms g).
Definition set_showing (v : bool) (g : game) : game :=
  mkGame (s_sequence g) (s_seq_len g) (s_input_index g) v (s_show_index g)
    (s_show_phase g) (s_game_over g) (s_round g) (s_transitioning g)
    (s_show_ms_current g) (s_flash_phase g) (s_flash_interval_ms g).
Definition set_show_index (v : Z) (g : game) : game :=
  mkGame (s_sequence g) (s_seq_len g) (s_input_index g) (s_showing g) v
    (s_show_phase g) (s_game_over g) (s_round g) (s_transitioning g)
    (s_show_ms_current g) (s_flash_phase g) (s_flash_interval_ms g).
Definition set_show_phase (v : Z) (g : game) : game :=
  mkGame (s_sequence g) (s_seq_len g) (s_input_index g) (s_showing g)
    (s_show_index g) v (s_game_over g) (s_round g) (s_transitioning g)
    (s_show_ms_current g) (s_flash_phase g) (s_flash_interval_ms g).
Definition set_game_over (v : bool) (g : game) : game :=
  mkGame (s_sequence g) (s_seq_len g) (s_input_index g) (s_showing g)
    (s_show_index g) (s_show_phase g) v (s_round g) (s_transitioning g)
    (s_show_ms_current g) (s_flash_phase g) (s_flash_interval_ms g).
Definition set_round (v : Z) (g : game) : game :=
  mkGame (s_sequence g) (s_seq_len g) (s_input_index g) (s_showing g)
    (s_show_index g) (s_show_phase g) (s_game_over g) v (s_transitioning g)
    (s_show_ms_current g) (s_flash_phase g) (s_flash_interval_ms g).
Definition set_transitioning (v : bool) (g : game) : game :=
  mkGame (s_sequence g) (s_seq_len g) (s_input_index g) (s_showing g)
    (s_show_index g) (s_show_phase g) (s_game_over g) (s_round g) v
    (s_show_ms_current g) (s_flash_phase g) (s_flash_interval_ms g).
Definition set_show_ms_current (v : Z) (g : game) : game :=
  mkGame (s_sequence g) (s_seq_len g) (s_input_index g) (s_showing g)
    (s_show_index g) (s_show_phase g) (s_game_over g) (s_round g)
    (s_transitioning g) v (s_flash_phase g) (s_flash_interval_ms g).
Definition set_flash_phase (v : Z) (g : game) : game :=
  mkGame (s_sequence g) (s_seq_len g) (s_input_index g) (s_showing g)
    (s_show_index g) (s_show_phase g) (s_game_over g) (s_round g)
    (s_transitioning g) (s_show_ms_current g) v (s_flash_interval_ms g).
Definition set_flash_interval_ms (v : Z) (g : game) : game :=
  mkGame (s_sequence g) (s_seq_len g) (s_input_index g) (s_showing g)
    (s_show_index g) (s_show_phase g) (s_game_over g) (s_round g)
    (s_transitioning g) (s_show_ms_current g) (s_flash_phase g) v.

Definition set_sequence_timer (v : option nat) (h : handles) : handles :=
  mkHandles v (s_feedback_timer h) (s_transition_timer h) (s_flash_timer h).
Definition set_feedback_timer (v : option nat) (h : handles) : handles :=
  mkHandles (s_sequence_timer h) v (s_transition_timer h) (s_flash_timer h).
Definition set_transition_timer (v : option nat) (h : handles) : handles :=
  mkHandles (s_sequence_timer h) (s_feedback_timer h) v (s_flash_timer h).
Definition set_flash_timer (v : option nat) (h : handles) : handles :=
  mkHandles (s_sequence_timer h) (s_feedback_timer h) (s_transition_timer h) v.

(** ** The monad: state passing over [world], [None] for undefined behaviour *)

Definition M (A : Type) : Type := world -> option (A * world).

Definition ret {A : Type} (a : A) : M A := fun w => Some (a, w).

Definition bind {A B : Type} (m : M A) (f : A -> M B) : M B :=
  fun w => match m w with
           | Some (a, w') => f a w'
           | None => None
           end.

Definition fault {A : Type} : M A := fun _ => None.

Notation "x <- c1 ;; c2" := (bind c1 (fun x => c2))
  (at level 100, c1 at next level, right associativity).
Notation "c1 ;; c2" := (bind c1 (fun _ => c2))
  (at level 100, right associativity).

(** Read a static, assign the statics. *)
Definition rd {A : Type} (f : game -> A) : M A := fun w => Some (f (gm w), w).
Definition wr (f : game -> game) : M unit :=
  fun w => Some (tt, mkWorld (f (gm w)) (hd w) (pending w) (next_handle w)
                       (rand_calls w) (out w) (reads w)).
Definition rdh {A : Type} (f : handles -> A) : M A := fun w => Some (f (hd w), w).
Definition wrh (f : handles -> handles) : M unit :=
  fun w => Some (tt, mkWorld (gm w) (f (hd w)) (pending w) (next_handle w)
                       (rand_calls w) (out w) (reads w)).

Definition emit (e : effect) : M unit :=
  fun w => Some (tt, mkWorld (gm w) (hd w) (pending w) (next_handle w)
                       (rand_calls w) (out w ++ [e]) (reads w)).

(** Run a computation for its final world. *)
Definition exec {A : Type} (m : M A) (w : world) : option world :=
  match m w with
  | Some (_, w') => Some w'
  | None => None
  end.

(** ** Array accesses

    An access outside [s_sequence[0 .. MAX_SEQUENCE)] is undefined behaviour
    and faults.  Each read is also recorded, with the length current at that
    moment, in the ghost field [reads]. *)
Definition in_array (i : Z) : bool := (0 <=? i) && (i <? MAX_SEQUENCE).

Definition read_seq (i : Z) : M Z :=
  fun w =>
    if in_array i then
      match s_sequence (gm w) !! Z.to_nat i with
      | Some v => Some (v, mkWorld (gm w) (hd w) (pending w) (next_handle w)
                             (rand_calls w) (out w)
                             (reads w ++ [(i, s_seq_len (gm w))]))
      | None => None
      end
    else None.

Definition write_seq (i v : Z) : M unit :=
  fun w =>
    if in_array i then
      match s_sequence (gm w) !! Z.to_nat i with
      | Some _ => wr (set_sequence (<[Z.to_nat i := v]> (s_sequence (gm w)))) w
      | None => None
      end
    else None.

(** ** The program *)

Section Program.

(** The results of the successive calls of [rand()] after
    [srand(time(NULL))]; [rand] returns a value in [0 .. RAND_MAX]. *)
Variable rand_out : nat -> N.

(** Build configuration: whether [PBL_PLATFORM_CHALK] is defined. *)
Variable PBL_PLATFORM_CHALK : bool.

Definition rand : M Z :=
  fun w => Some (Z.of_N (rand_out (rand_calls w)),
                 mkWorld (gm w) (hd w) (pending w) (next_handle w)
                   (S (rand_calls w)) (out w) (reads w)).

(** [app_timer_register] hands out a fresh handle; [app_timer_cancel]
    removes the timer with that handle, if it is still pending. *)
Definition app_timer_register (ms : Z) (cb : callback) : M nat :=
  fun w => Some (next_handle w,
                 mkWorld (gm w) (hd w)
                   (pending w ++ [mkTimer (next_handle w) ms cb])
                   (S (next_handle w)) (rand_calls w) (out w) (reads w)).

Definition app_timer_cancel (h : nat) : M unit :=
  fun w => Some (tt,
                 mkWorld (gm w) (hd w)
                   (filter (fun t => t_handle t <> h) (pending w))
                   (next_handle w) (rand_calls w) (out w) (reads w)).

(** [if (slot) app_timer_cancel(slot);] *)
Definition cancel_if_set (slot : handles -> option nat) : M unit :=
  t <- rdh slot ;;
  match t with
  | Some h => app_timer_cancel h
  | None => ret tt
  end.

Definition show_message (msg : string) : M unit := emit (FxMessage msg).

(** [snprintf]'s [%d]. *)
Definition fmt_d (n : Z) : string := NilZero.string_of_int (Z.to_int n).

Definition newline : string := String (Ascii.ascii_of_nat 10) EmptyString.

Definition update_info_layer : M unit :=
  over <- rd s_game_over ;;
  if over then
    len <- rd s_seq_len ;;
    if len =? 0 then emit (FxInfo EmptyString)
    else
      r <- rd s_round ;;
      emit (FxInfo ("Press Select to Restart" ++ newline ++ "Round: " ++ fmt_d r)%string)
  else
    r <- rd s_round ;;
    emit (FxInfo ("Round: " ++ fmt_d r)%string).

(** [apply_layout]: the frame geometry belongs to the display; what the
    game state decides is [initial_screen] and the height of the info block. *)
Definition apply_layout : M unit :=
  over <- rd s_game_over ;;
  len <- rd s_seq_len ;;
  let initial_screen := over && (len =? 0) in
  let info_h := if over && negb initial_screen then 44 else 28 in
  emit (FxLayout initial_screen info_h).

(** [highlight_glyph], once [prv_window_load] has created the three glyph
    layers (it runs before any click or timer event is delivered). *)
Definition highlight_glyph (idx : Z) (on : bool) : M unit :=
  if (idx <? 0) || (idx >? 2) then ret tt
  else emit (FxGlyph idx on).

Definition add_random_step : M unit :=
  len <- rd s_seq_len ;;
  if len <? MAX_SEQUENCE then
    r <- rand ;;
    write_seq len (Z.rem r 3) ;;
    wr (set_seq_len (len + 1)) ;;
    len' <- rd s_seq_len ;;
    _ <- read_seq (len' - 1) ;;       (* argument of APP_LOG *)
    ret tt
  else ret tt.

Definition schedule_sequence_timer (ms : Z) : M unit :=
  cancel_if_set s_sequence_timer ;;
  h <- app_timer_register ms CbSequenceTimer ;;
  wrh (set_sequence_timer (Some h)).

Definition sequence_timer_callback : M unit :=
  wrh (set_sequence_timer None) ;;
  showing <- rd s_showing ;;
  if negb showing then ret tt
  else
    idx <- rd s_show_index ;;
    len <- rd s_seq_len ;;
    if idx >=? len then
      wr (set_showing false) ;;
      highlight_glyph 0 false ;;
      highlight_glyph 1 false ;;
      highlight_glyph 2 false ;;
      show_message "Your turn"
    else
      phase <- rd s_show_phase ;;
      if phase =? 0 then
        step <- read_seq idx ;;
        show_message (button_name step) ;;
        highlight_glyph step true ;;
        wr (set_show_phase 1) ;;
        ms <- rd s_show_ms_current ;;
        schedule_sequence_timer ms
      else
        show_message EmptyString ;;
        prev_step <- read_seq idx ;;
        highlight_glyph prev_step false ;;
        wr (set_show_phase 0) ;;
        wr (set_show_index (idx + 1)) ;;
        schedule_sequence_timer PAUSE_MS.

Definition start_show_sequence : M unit :=
  wr (set_showing true) ;;
  wr (set_show_index 0) ;;
  wr (set_show_phase 0) ;;
  wr (set_transitioning false) ;;
  wrh (set_sequence_timer None) ;;
  sequence_timer_callback.

Definition begin_round : M unit :=
  wr (set_input_index 0) ;;
  wr (set_show_index 0) ;;
  wr (set_show_phase 0) ;;
  wr (set_showing true) ;;
  wr (set_game_over false) ;;
  wr (set_transitioning false) ;;
  len <- rd s_seq_len ;;
  wr (set_round len) ;;
  wr (set_show_ms_current (calc_show_ms len)) ;;
  update_info_layer ;;
  start_show_sequence ;;
  apply_layout.

Definition end_game : M unit :=
  wr (set_game_over true) ;;
  wr (set_showing false) ;;
  t <- rdh s_sequence_timer ;;
  match t with
  | Some h => app_timer_cancel h ;; wrh (set_sequence_timer None)
  | None => ret tt
  end ;;
  update_info_layer ;;
  show_message "Game Over" ;;
  apply_layout.

Definition clear_feedback_callback : M unit := show_message "Your turn".

Definition clear_glyph_callback (data : Z) : M unit :=
  highlight_glyph data false ;;
  wrh (set_feedback_timer None).

Definition flash_animation_tick (data : Z) : M unit :=
  let cycles := data in
  ph <- rd s_flash_phase ;;
  wr (set_flash_phase (ph + 1)) ;;
  emit FxFlashDirty ;;
  ph' <- rd s_flash_phase ;;
  if ph' >=? cycles then wrh (set_flash_timer None)
  else
    ms <- rd s_flash_interval_ms ;;
    h <- app_timer_register ms (CbFlashTick cycles) ;;
    wrh (set_flash_timer (Some h)).

Definition start_flash_animation (cycles : Z) : M unit :=
  wr (set_flash_phase 0) ;;
  wr (set_flash_interval_ms (if PBL_PLATFORM_CHALK then 180 else 140)) ;;
  emit FxFlashDirty ;;
  cancel_if_set s_flash_timer ;;
  ms <- rd s_flash_interval_ms ;;
  h <- app_timer_register ms (CbFlashTick cycles) ;;
  wrh (set_flash_timer (Some h)).

(** [cycles] of [start_round_transition]. *)
Definition flash_cycles (len : Z) : Z :=
  if (len =? 4) || (len =? 6) then 5 else if len =? 8 then 7 else 3.

Definition start_round_transition : M unit :=
  wr (set_transitioning true) ;;
  wr (set_showing false) ;;
  emit (FxVibe VibeDouble) ;;
  len <- rd s_seq_len ;;
  (if (len =? 4) || (len =? 6) then emit (FxVibe VibeShort)
   else if len =? 8 then emit (FxVibe VibeLong)
   else ret tt) ;;
  show_message ("Length " ++ fmt_d len)%string ;;
  let cycles := flash_cycles len in
  start_flash_animation cycles ;;
  cancel_if_set s_transition_timer ;;
  let duration := 150 * cycles + 200 in
  h <- app_timer_register duration CbRoundTransition ;;
  wrh (set_transition_timer (Some h)).

Definition round_transition_callback : M unit :=
  wrh (set_transition_timer None) ;;
  t <- rdh s_flash_timer ;;
  match t with
  | Some h => app_timer_cancel h ;; wrh (set_flash_timer None)
  | None => ret tt
  end ;;
  wr (set_flash_phase 0) ;;
  emit FxFlashDirty ;;
  begin_round.

Definition handle_input (pressed : Z) : M unit :=
  showing <- rd s_showing ;;
  if showing then ret tt
  else
  transitioning <- rd s_transitioning ;;
  if transitioning then ret tt
  else
  over <- rd s_game_over ;;
  if over then ret tt
  else
  idx <- rd s_input_index ;;
  len <- rd s_seq_len ;;
  if idx >=? len then ret tt
  else
    _ <- read_seq idx ;;                (* argument of APP_LOG *)
    highlight_glyph pressed true ;;
    t <- rdh s_feedback_timer ;;
    match t with
    | Some h => app_timer_cancel h ;; wrh (set_feedback_timer None)
    | None => ret tt
    end ;;
    h <- app_timer_register 150 (CbClearGlyph pressed) ;;
    wrh (set_feedback_timer (Some h)) ;;
    expected <- read_seq idx ;;
    if pressed =? expected then
      emit (FxVibe VibeShort) ;;
      wr (set_input_index (idx + 1)) ;;
      idx' <- rd s_input_index ;;
      if idx' =? len then
        if len >=? MAX_SEQUENCE then
          wr (set_game_over true) ;;
          update_info_layer ;;
          show_message "You win!"
        else
          add_random_step ;;
          len' <- rd s_seq_len ;;
          wr (set_round len') ;;
          update_info_layer ;;
          start_round_transition
      else
        show_message "Good" ;;
        _ <- app_timer_register 200 CbClearFeedback ;;   (* handle discarded *)
        ret tt
    else
      emit (FxVibe VibeLong) ;;
      _ <- read_seq idx ;;              (* argument of APP_LOG *)
      end_game.

Definition prv_select_click_handler : M unit :=
  over <- rd s_game_over ;;
  if over then
    wr (set_seq_len 0) ;;
    wr (set_round 0) ;;
    add_random_step ;;
    begin_round ;;
    apply_layout
  else handle_input (btn_code SEQ_BTN_SELECT).

Definition prv_up_click_handler : M unit := handle_input (btn_code SEQ_BTN_UP).

Definition prv_down_click_handler : M unit := handle_input (btn_code SEQ_BTN_DOWN).

(** The statics as the C initialisers leave them. *)
Definition initial_world : world :=
  mkWorld
    (mkGame (replicate 8%nat 0) 0 0 false 0 0 false 0 false SHOW_MS 0 150)
    (mkHandles None None None None)
    [] 0%nat 0%nat [] [].

(** The game-state part of [prv_init]; creating and pushing the window is
    the host shell's side. *)
Definition prv_init : M unit :=
  wr (set_seq_len 0) ;;
  wr (set_round 0) ;;
  wr (set_game_over true) ;;
  update_info_layer.

(** ** Events delivered by the host event loop *)

Inductive event : Type :=
| Press (b : SequenceButton)     (* a single click on one of the buttons *)
| Fire (h : nat).                (* the pending timer with handle h expires *)

(** [prv_click_config_provider]'s subscription table. *)
Definition click_handler (b : SequenceButton) : M unit :=
  match b with
  | SEQ_BTN_SELECT => prv_select_click_handler
  | SEQ_BTN_UP => prv_up_click_handler
  | SEQ_BTN_DOWN => prv_down_click_handler
  end.

Definition run_callback (cb : callback) : M unit :=
  match cb with
  | CbSequenceTimer => sequence_timer_callback
  | CbClearGlyph idx => clear_glyph_callback idx
  | CbClearFeedback => clear_feedback_callback
  | CbRoundTransition => round_transition_callback
  | CbFlashTick cycles => flash_animation_tick cycles
  end.

Definition find_timer (h : nat) (l : list AppTimer) : option AppTimer :=
  List.find (fun t => Nat.eqb (t_handle t) h) l.

(** An expired timer leaves the service, then its callback runs. *)
Definition fire (h : nat) : M unit :=
  fun w =>
    match find_timer h (pending w) with
    | Some t => (app_timer_cancel h ;; run_callback (t_cb t)) w
    | None => None
    end.

Definition enabled (e : event) (w : world) : Prop :=
  match e with
  | Press _ => True
  | Fire h => exists t, find_timer h (pending w) = Some t
  end.

(** One event; [None] when the event is not enabled or the handler faults. *)
Definition step (w : world) (e : event) : option world :=
  match e with
  | Press b => exec (click_handler b) w
  | Fire h => exec (fire h) w
  end.

Fixpoint run (w : world) (es : list event) : option world :=
  match es with
  | [] => Some w
  | e :: es' =>
      match step w e with
      | Some w' => run w' es'
      | None => None
      end
  end.

Definition boot : option world := exec prv_init initial_world.

(** The states an execution can be in between two events.  Timers may
    expire in any order, whatever their delays: every schedule the watch
    can produce is among these. *)
Inductive reachable : world -> Prop :=
| reach_boot w : boot = Some w -> reachable w
| reach_step w e w' : reachable w -> step w e = Some w' -> reachable w'.

End Program.

(** * Vocabulary of the statements *)

(** ** The range of [int] *)

Definition int_min : Z := -2147483648.
Definition int_max : Z := 2147483647.
Definition in_int (z : Z) : Prop := int_min <= z <= int_max.

(** ** What the helpers send and leave behind *)

(** What [highlight_glyph] sends to the display. *)
Definition glyph_fx (idx : Z) (on : bool) : list effect :=
  if (idx <? 0) || (idx >? 2) then [] else [FxGlyph idx on].

(** The text [update_info_layer] puts in the info layer. *)
Definition info_text (g : game) : string :=
  if s_game_over g then
    if s_seq_len g =? 0 then EmptyString
    else ("Press Select to Restart" ++ newline ++ "Round: " ++
          fmt_d (s_round g))%string
  else ("Round: " ++ fmt_d (s_round g))%string.

(** The extra pulse of [start_round_transition]. *)
Definition milestone_fx (len : Z) : list effect :=
  if (len =? 4) || (len =? 6) then [FxVibe VibeShort]
  else if len =? 8 then [FxVibe VibeLong]
  else [].

(** [if (slot) app_timer_cancel(slot)] on the list of pending timers. *)
Definition cancel_slot (slot : option nat) (l : list AppTimer) : list AppTimer :=
  match slot with
  | Some h => filter (fun t => t_handle t <> h) l
  | None => l
  end.

(** Every pending handle was handed out before [n]. *)
Definition fresh_below (n : nat) (l : list AppTimer) : Prop :=
  Forall (fun t => (t_handle t < n)%nat) l.

(** ** Cues of the playback *)

Definition display_cue (s : Z) : list effect :=
  FxMessage (button_name s) :: glyph_fx s true.

Definition pause_cue (s : Z) : list effect :=
  FxMessage EmptyString :: glyph_fx s false.

Definition your_turn_cue : list effect :=
  [FxGlyph 0 false; FxGlyph 1 false; FxGlyph 2 false; FxMessage "Your turn"].

Definition pair_cues (steps : list Z) : list effect :=
  flat_map (fun s => display_cue s ++ pause_cue s) steps.

(** ** The four timer slots *)

(** The categories of timers: one per [AppTimer *] static, and the prompt
    timer of [handle_input], whose handle is not kept. *)
Inductive category : Type :=
| CatSequence | CatFeedback | CatTransition | CatFlash | CatPrompt.

Definition cb_cat (cb : callback) : category :=
  match cb with
  | CbSequenceTimer => CatSequence
  | CbClearGlyph _ => CatFeedback
  | CbClearFeedback => CatPrompt
  | CbRoundTransition => CatTransition
  | CbFlashTick _ => CatFlash
  end.

Definition cat_eqb (a b : category) : bool :=
  match a, b with
  | CatSequence, CatSequence | CatFeedback, CatFeedback
  | CatTransition, CatTransition | CatFlash, CatFlash
  | CatPrompt, CatPrompt => true
  | _, _ => false
  end.

(** The handles of the pending timers of one category, oldest first. *)
Fixpoint handles_of (c : category) (l : list AppTimer) : list nat :=
  match l with
  | [] => []
  | t :: l' =>
      if cat_eqb (cb_cat (t_cb t)) c then t_handle t :: handles_of c l'
      else handles_of c l'
  end.

Definition slot_list (slot : option nat) : list nat :=
  match slot with
  | Some h => [h]
  | None => []
  end.

(** Each slot holds exactly the pending timers of its category: none when it
    is [NULL], otherwise one, and the slot is its handle. *)
Definition timers_ok (H : handles) (l : list AppTimer) (n : nat) : Prop :=
  NoDup (map t_handle l) /\ fresh_below n l /\
  handles_of CatSequence l = slot_list (s_sequence_timer H) /\
  handles_of CatFeedback l = slot_list (s_feedback_timer H) /\
  handles_of CatTransition l = slot_list (s_transition_timer H) /\
  handles_of CatFlash l = slot_list (s_flash_timer H).

(** ** The invariant *)

Definition read_ok (r : Z * Z) : Prop :=
  0 <= fst r < snd r /\ snd r <= MAX_SEQUENCE.

Record Inv (w : world) : Prop := mkInv {
  inv_arr : length (s_sequence (gm w)) = 8%nat;
  inv_len : 0 <= s_seq_len (gm w) <= MAX_SEQUENCE;
  inv_input : 0 <= s_input_index (gm w) <= s_seq_len (gm w);
  inv_show : 0 <= s_show_index (gm w) <= s_seq_len (gm w);
  inv_flags :
    (s_showing (gm w) = true ->
     s_transitioning (gm w) = false /\ s_game_over (gm w) = false) /\
    (s_transitioning (gm w) = true -> s_game_over (gm w) = false);
  inv_timers : timers_ok (hd w) (pending w) (next_handle w);
  inv_seq_idle : s_showing (gm w) = false -> s_sequence_timer (hd w) = None;
  inv_tr_idle :
    s_transitioning (gm w) = false ->
    s_transition_timer (hd w) = None /\ s_flash_timer (hd w) = None;
  inv_reads : Forall read_ok (reads w)
}.

(** The cursors are within the sequence, the sequence within the array,
    and every read made so far was below the length of its moment. *)
Record cursors_ok (w : world) : Prop := mkCursorsOk {
  co_arr : length (s_sequence (gm w)) = 8%nat;
  co_len : 0 <= s_seq_len (gm w) <= MAX_SEQUENCE;
  co_input : 0 <= s_input_index (gm w) <= s_seq_len (gm w);
  co_show : 0 <= s_show_index (gm w) <= s_seq_len (gm w);
  co_reads : Forall read_ok (reads w)
}.

(** The operation [m] returns from [w] without fault, with [cursors_ok]. *)
Definition op_keeps (m : M unit) (w : world) : Prop :=
  match exec m w with
  | Some w' => cursors_ok w'
  | None => False
  end.

(** ** Schedules *)

Section Schedules.

Variable rnd : nat -> N.
Variable chalk : bool.

(** The timer stored in [s_sequence_timer] expires. *)
Definition playback_tick (w : world) : option world :=
  match s_sequence_timer (hd w) with
  | Some h => step rnd chalk w (Fire h)
  | None => None
  end.

Fixpoint ticks (n : nat) (w : world) : option world :=
  match n with
  | O => Some w
  | S n' =>
      match playback_tick w with
      | Some w' => ticks n' w'
      | None => None
      end
  end.

(** Playback of the sequence [arr] of length [L] stands at step [i], phase
    [ph], with the playback timer pending. *)
Record playing (arr : list Z) (L i ph : Z) (w : world) : Prop := mkPlaying {
  pl_seq : s_sequence (gm w) = arr;
  pl_len : s_seq_len (gm w) = L;
  pl_showing : s_showing (gm w) = true;
  pl_idx : s_show_index (gm w) = i;
  pl_phase : s_show_phase (gm w) = ph;
  pl_trans : s_transitioning (gm w) = false;
  pl_over : s_game_over (gm w) = false;
  pl_timer : exists h t, s_sequence_timer (hd w) = Some h /\
                         find_timer h (pending w) = Some t /\
                         t_cb t = CbSequenceTimer;
  pl_fresh : fresh_below (next_handle w) (pending w)
}.

Definition step_keeps (w : world) (e : event) : Prop :=
  match step rnd chalk w e with
  | Some w' => Inv w'
  | None => False
  end.

End Schedules.

(** ** Concrete executions *)

(** A seed whose [rand()] always returns a multiple of 3: every step is UP. *)
Definition all_up : nat -> N := fun _ => 0%N.

(** The events of a list, delivered from start-up on a non-Chalk build. *)
Definition play (es : list event) : option world :=
  match boot with
  | Some w => run all_up false w es
  | None => None
  end.

Definition world_after (es : list event) : world :=
  match play es with
  | Some w => w
  | None => initial_world
  end.

(** SELECT, then the playback of round 1 up to "Your turn". *)
Definition first_turn : list event :=
  [Press SEQ_BTN_SELECT; Fire 0; Fire 1]%nat.

(** Rounds 1 and 2 played without a mistake, every timer expiring in the
    order of its delay, up to "Your turn" of round 3. *)
Definition three_rounds : list event :=
  [Press SEQ_BTN_SELECT; Fire 0; Fire 1; Press SEQ_BTN_UP;
   Fire 3; Fire 2; Fire 5; Fire 6; Fire 4; Fire 7;
   Fire 8; Fire 9; Fire 10; Press SEQ_BTN_UP;
   Fire 11; Fire 12; Press SEQ_BTN_UP; Fire 14;
   Fire 13; Fire 16; Fire 17; Fire 15; Fire 18;
   Fire 19; Fire 20; Fire 21; Fire 22; Fire 23]%nat.

(** Rounds 1 to 7 and the first seven steps of round 8, played likewise. *)
Definition perfect_play : list event :=
  three_rounds ++
  [Press SEQ_BTN_UP; Fire 24; Fire 25; Press SEQ_BTN_UP;
   Fire 26; Fire 27; Press SEQ_BTN_UP; Fire 29;
   Fire 28; Fire 31; Fire 32; Fire 33; Fire 34;
   Fire 30; Fire 35; Fire 36; Fire 37; Fire 38;
   Fire 39; Fire 40; Fire 41; Fire 42; Press SEQ_BTN_UP;
   Fire 43; Fire 44; Press SEQ_BTN_UP; Fire 45;
   Fire 46; Press SEQ_BTN_UP; Fire 47; Fire 48;
   Press SEQ_BTN_UP; Fire 50; Fire 49; Fire 52;
   Fire 53; Fire 51; Fire 54; Fire 55; Fire 56;
   Fire 57; Fire 58; Fire 59; Fire 60; Fire 61;
   Fire 62; Fire 63; Press SEQ_BTN_UP; Fire 64;
   Fire 65; Press SEQ_BTN_UP; Fire 66; Fire 67;
   Press SEQ_BTN_UP; Fire 68; Fire 69; Press SEQ_BTN_UP;
   Fire 70; Fire 71; Press SEQ_BTN_UP; Fire 73;
   Fire 72; Fire 75; Fire 76; Fire 77; Fire 78;
   Fire 74; Fire 79; Fire 80; Fire 81; Fire 82;
   Fire 83; Fire 84; Fire 85; Fire 86; Fire 87;
   Fire 88; Fire 89; Fire 90; Press SEQ_BTN_UP;
   Fire 91; Fire 92; Press SEQ_BTN_UP; Fire 93;
   Fire 94; Press SEQ_BTN_UP; Fire 95; Fire 96;
   Press SEQ_BTN_UP; Fire 97; Fire 98; Press SEQ_BTN_UP;
   Fire 99; Fire 100; Press SEQ_BTN_UP; Fire 102;
   Fire 101; Fire 104; Fire 105; Fire 103; Fire 106;
   Fire 107; Fire 108; Fire 109; Fire 110; Fire 111;
   Fire 112; Fire 113; Fire 114; Fire 115; Fire 116;
   Fire 117; Fire 118; Fire 119; Press SEQ_BTN_UP;
   Fire 120; Fire 121; Press SEQ_BTN_UP; Fire 122;
   Fire 123; Press SEQ_BTN_UP; Fire 124; Fire 125;
   Press SEQ_BTN_UP; Fire 126; Fire 127; Press SEQ_BTN_UP;
   Fire 128; Fire 129; Press SEQ_BTN_UP; Fire 130;
   Fire 131; Press SEQ_BTN_UP; Fire 133; Fire 132;
   Fire 135; Fire 136; Fire 137; Fire 138; Fire 139;
   Fire 140; Fire 134; Fire 141; Fire 142; Fire 143;
   Fire 144; Fire 145; Fire 146; Fire 147; Fire 148;
   Fire 149; Fire 150; Fire 151; Fire 152; Fire 153;
   Fire 154; Fire 155; Fire 156; Press SEQ_BTN_UP;
   Fire 157; Fire 158; Press SEQ_BTN_UP; Fire 159;
   Fire 160; Press SEQ_BTN_UP; Fire 161; Fire 162;
   Press SEQ_BTN_UP; Fire 163; Fire 164; Press SEQ_BTN_UP;
   Fire 165; Fire 166; Press SEQ_BTN_UP; Fire 167;
   Fire 168; Press SEQ_BTN_UP; Fire 169; Fire 170]%nat.

(** * Further vocabulary *)

(** ** The text on the info layer *)

(** The text of the last [update_info_layer] among the calls of a log,
    [acc] if there is none. *)
Fixpoint info_after (acc : option string) (l : list effect) : option string :=
  match l with
  | [] => acc
  | FxInfo txt :: l' => info_after (Some txt) l'
  | _ :: l' => info_after acc l'
  end.

Definition last_info (l : list effect) : option string := info_after None l.

(** ** Bookkeeping of a session *)

Definition valid_step (v : Z) : Prop := 0 <= v <= 2.

Record Inv2 (w : world) : Prop := mkInv2 {
  i2_round : s_round (gm w) = s_seq_len (gm w);
  i2_len : s_game_over (gm w) = false -> 1 <= s_seq_len (gm w);
  i2_show_idx : s_showing (gm w) = true -> s_input_index (gm w) = 0;
  i2_show_timer :
    s_showing (gm w) = true -> s_sequence_timer (hd w) <> None;
  i2_show_ms :
    s_showing (gm w) = true ->
    s_show_ms_current (gm w) = calc_show_ms (s_seq_len (gm w));
  i2_tr_timer :
    s_transitioning (gm w) = true -> s_transition_timer (hd w) <> None;
  i2_accept :
    s_showing (gm w) = false -> s_transitioning (gm w) = false ->
    s_game_over (gm w) = false -> s_input_index (gm w) < s_seq_len (gm w);
  i2_steps :
    Forall valid_step (take (Z.to_nat (s_seq_len (gm w))) (s_sequence (gm w)));
  i2_info : last_info (out w) = Some (info_text (gm w))
}.

(** Between [w] and [w'] the sequence kept its steps and grew by at most
    one. *)
Definition grows (w w' : world) : Prop :=
  s_seq_len (gm w) <= s_seq_len (gm w') <= s_seq_len (gm w) + 1 /\
  take (Z.to_nat (s_seq_len (gm w))) (s_sequence (gm w')) =
  take (Z.to_nat (s_seq_len (gm w))) (s_sequence (gm w)).

(** SELECT while the game is over. *)
Definition is_restart (w : world) (e : event) : Prop :=
  e = Press SEQ_BTN_SELECT /\ s_game_over (gm w) = true.

Section Bookkeeping.

Variable rnd : nat -> N.
Variable chalk : bool.

Definition step_keeps2 (w : world) (e : event) : Prop :=
  match step rnd chalk w e with
  | Some w' => Inv2 w' /\ (is_restart w e \/ grows w w')
  | None => False
  end.

End Bookkeeping.

(** From [w] to [w'] the length did not decrease and the steps below the
    old length are the same. *)
Definition keeps_steps (w w' : world) : Prop :=
  s_seq_len (gm w) <= s_seq_len (gm w') /\
  take (Z.to_nat (s_seq_len (gm w))) (s_sequence (gm w')) =
  take (Z.to_nat (s_seq_len (gm w))) (s_sequence (gm w)).

(** ** The flash animation *)

Section Animations.

Variable rnd : nat -> N.
Variable chalk : bool.

(** The timer stored in [s_flash_timer] expires. *)
Definition flash_tick (w : world) : option world :=
  match s_flash_timer (hd w) with
  | Some h => step rnd chalk w (Fire h)
  | None => None
  end.

Fixpoint flash_ticks (n : nat) (w : world) : option world :=
  match n with
  | O => Some w
  | S n' =>
      match flash_tick w with
      | Some w' => flash_ticks n' w'
      | None => None
      end
  end.

(** The animation of [c] cycles with the interval [ms] stands at phase
    [ph], its timer pending. *)
Record flashing (ms c ph : Z) (w : world) : Prop := mkFlashing {
  fl_phase : s_flash_phase (gm w) = ph;
  fl_interval : s_flash_interval_ms (gm w) = ms;
  fl_timer : exists h, s_flash_timer (hd w) = Some h /\
                       find_timer h (pending w) =
                       Some (mkTimer h ms (CbFlashTick c));
  fl_fresh : fresh_below (next_handle w) (pending w)
}.

End Animations.

(** ** Leaving the window *)

(** [prv_window_unload], the part on the timers (lines 505-520); the rest
    of the function destroys the layers of the window. *)
Definition prv_window_unload : M unit :=
  t <- rdh s_sequence_timer ;;
  match t with
  | Some h => app_timer_cancel h ;; wrh (set_sequence_timer None)
  | None => ret tt
  end ;;
  t <- rdh s_feedback_timer ;;
  match t with
  | Some h => app_timer_cancel h ;; wrh (set_feedback_timer None)
  | None => ret tt
  end ;;
  t <- rdh s_transition_timer ;;
  match t with
  | Some h => app_timer_cancel h ;; wrh (set_transition_timer None)
  | None => ret tt
  end ;;
  t <- rdh s_flash_timer ;;
  match t with
  | Some h => app_timer_cancel h ;; wrh (set_flash_timer None)
  | None => ret tt
  end.

(** ** The frames of [apply_layout] *)

Record GRect : Type := mkRect { rx : Z; ry : Z; rw : Z; rh : Z }.

Record frames : Type := mkFrames {
  text_frame : GRect;
  title_frame : GRect;
  info_frame : GRect;
  info_hidden : bool
}.

(** The frames [apply_layout] sets in a window whose root layer has the
    bounds [bw] x [bh], for the statics [s_game_over] and [s_seq_len]. *)
Definition layout_frames (bw bh : Z) (over : bool) (len : Z) : frames :=
  let glyph_w := 36 in
  let usable_w := bw - glyph_w in
  let text_h := 44 in
  let title_h := 34 in
  let gap := 6 in
  let initial_screen := over && (len =? 0) in
  let info_h := if over && negb initial_screen then 44 else 28 in
  let center_y := Z.quot bh 2 in
  let text_y := center_y - Z.quot text_h 2 in
  let title_y := text_y - title_h - gap in
  let title_y := if title_y <? 0 then 0 else title_y in
  let info_y := text_y + text_h + gap in
  let info_y := if info_y + info_h >? bh then bh - info_h else info_y in
  mkFrames (mkRect 0 text_y usable_w text_h)
           (mkRect 0 title_y usable_w title_h)
           (mkRect 0 info_y usable_w info_h)
           initial_screen.

Definition bottom (r : GRect) : Z := ry r + rh r.

(** ** The handle kept for a category of timers *)

Definition slot_of (c : category) (H : handles) : option nat :=
  match c with
  | CatSequence => s_sequence_timer H
  | CatFeedback => s_feedback_timer H
  | CatTransition => s_transition_timer H
  | CatFlash => s_flash_timer H
  | CatPrompt => None
  end.

(** ** The celebration of a completed round *)

(** The round transition of the sequence [arr] of length [L] is under way
    and the completion timer [h] is stored. *)
Record celebrating (arr : list Z) (L : Z) (h : nat) (w : world) : Prop :=
  mkCelebrating {
  ce_seq : s_sequence (gm w) = arr;
  ce_len : s_seq_len (gm w) = L;
  ce_round : s_round (gm w) = L;
  ce_trans : s_transitioning (gm w) = true;
  ce_showing : s_showing (gm w) = false;
  ce_over : s_game_over (gm w) = false;
  ce_timer : s_transition_timer (hd w) = Some h
}.

(** * Verification *)

(** ** Timing policy *)

(** Inside the range of [int] nothing wraps. *)
Lemma wrap_int_id (z : Z) : in_int z -> wrap_int z = z.
Proof.
  unfold in_int, int_min, int_max, wrap_int. intros Hz.
  rewrite Z.mod_small; lia.
Qed.

(** Up to a length of 61356678 no difference and no product of
    [calc_show_ms] leaves the range of [int]: the result is that of the
    same expressions over the integers. *)
Lemma calc_show_ms_exact (len : Z) :
  len <= 61356678 ->
  calc_show_ms len =
  Z.max 200
    (if len <=? 1 then 700
     else if len <=? 3 then 700 - 60 * (len - 1)
     else 700 - 120 - 35 * (len - 3)).
Proof.
  intros Hb. unfold calc_show_ms, SHOW_MS, int_sub, int_mul.
  destruct (Z.leb_spec len 1) as [H1 | H1].
  - reflexivity.
  - destruct (Z.leb_spec len 3) as [H3 | H3].
    + rewrite (wrap_int_id (len - 1))
        by (unfold in_int, int_min, int_max; lia).
      rewrite (wrap_int_id (60 * (len - 1)))
        by (unfold in_int, int_min, int_max; lia).
      rewrite (wrap_int_id (700 - 60 * (len - 1)))
        by (unfold in_int, int_min, int_max; lia).
      destruct (Z.ltb_spec (700 - 60 * (len - 1)) 200); lia.
    + rewrite (wrap_int_id (len - 3))
        by (unfold in_int, int_min, int_max; lia).
      rewrite (wrap_int_id (35 * (len - 3)))
        by (unfold in_int, int_min, int_max; lia).
      change (wrap_int (60 * 2)) with 120.
      change (wrap_int (700 - 120)) with 580.
      rewrite (wrap_int_id (580 - 35 * (len - 3)))
        by (unfold in_int, int_min, int_max; lia).
      destruct (Z.ltb_spec (580 - 35 * (len - 3)) 200); lia.
Qed.

(** Far beyond that length the product [35 * (len - 3)] wraps, and the
    result is no longer the floored expression. *)
Lemma calc_show_ms_wraps : calc_show_ms 100000000 = 794967981.
Proof. reflexivity. Qed.

Lemma calc_show_ms_floor (len : Z) : 200 <= calc_show_ms len.
Proof.
  unfold calc_show_ms.
  match goal with
  | |- context [?ms <? 200] => destruct (Z.ltb_spec ms 200); lia
  end.
Qed.

Lemma calc_show_ms_antitone (a b : Z) :
  a <= b -> b <= 61356678 -> calc_show_ms b <= calc_show_ms a.
Proof.
  intros Hab Hb. rewrite !calc_show_ms_exact by lia.
  destruct (Z.leb_spec a 1), (Z.leb_spec a 3), (Z.leb_spec b 1),
    (Z.leb_spec b 3); lia.
Qed.

(** C5: [calc_show_ms] depends on the length alone; it is 700 for a length
    of at most 1, [700 - 60 * (len - 1)] for lengths 2 and 3, and
    [700 - 120 - 35 * (len - 3)] floored at 200 from length 4 on (the floor
    is not reached before length 14, so for lengths 4 to 8 the expression is
    exact).  The arithmetic is that of [int]: the third segment is stated
    for the lengths up to 61356678, for which it does not wrap; the game
    calls the function with lengths 1 to 8.  Whatever the argument the
    result is at least 200, and on lengths 1 to 8 it never increases. *)
Theorem calc_show_ms_piecewise :
  (forall len, len <= 1 -> calc_show_ms len = 700) /\
  (forall len, 2 <= len <= 3 -> calc_show_ms len = 700 - 60 * (len - 1)) /\
  (forall len, 4 <= len <= 61356678 ->
     calc_show_ms len = Z.max 200 (700 - 120 - 35 * (len - 3))) /\
  (forall len, 4 <= len <= 13 ->
     calc_show_ms len = 700 - 120 - 35 * (len - 3)) /\
  (forall len, 200 <= calc_show_ms len) /\
  (forall a b, 1 <= a -> a <= b -> b <= 8 ->
     calc_show_ms b <= calc_show_ms a) /\
  map calc_show_ms [1; 2; 3; 4; 5; 6; 7; 8] =
    [700; 640; 580; 545; 510; 475; 440; 405].
Proof.
  split; [| split; [| split; [| split; [| split; [| split]]]]].
  - intros len H. rewrite calc_show_ms_exact by lia.
    destruct (Z.leb_spec len 1); lia.
  - intros len H. rewrite calc_show_ms_exact by lia.
    destruct (Z.leb_spec len 1), (Z.leb_spec len 3); lia.
  - intros len H. rewrite calc_show_ms_exact by lia.
    destruct (Z.leb_spec len 1), (Z.leb_spec len 3); lia.
  - intros len H. rewrite calc_show_ms_exact by lia.
    destruct (Z.leb_spec len 1), (Z.leb_spec len 3); lia.
  - apply calc_show_ms_floor.
  - intros a b _ Hab Hb. apply calc_show_ms_antitone; lia.
  - reflexivity.
Qed.

Lemma calc_show_ms_piecewise_witness :
  calc_show_ms 1 = 700 /\ calc_show_ms 3 = 700 - 60 * (3 - 1) /\
  calc_show_ms 8 = Z.max 200 (700 - 120 - 35 * (8 - 3)) /\
  calc_show_ms 8 <= calc_show_ms 4.
Proof.
  destruct calc_show_ms_piecewise as (H1 & H2 & H3 & _ & _ & H6 & _).
  split; [apply (H1 1); lia |].
  split; [apply (H2 3); lia |].
  split; [apply (H3 8); lia |].
  apply (H6 4 8); lia.
Defined.

(** ** Symbolic execution of the handlers *)

(** Unfold the handlers and the monad down to the fields of the world. *)
Ltac run_prog :=
  cbv beta iota zeta delta
    [prv_select_click_handler prv_up_click_handler prv_down_click_handler
     click_handler run_callback fire step exec handle_input
     begin_round start_show_sequence sequence_timer_callback
     flash_animation_tick round_transition_callback clear_glyph_callback
     clear_feedback_callback add_random_step apply_layout
     show_message app_timer_register app_timer_cancel rand prv_init
     bind ret fault rd wr rdh wrh emit read_seq write_seq
     set_sequence set_seq_len set_input_index set_showing set_show_index
     set_show_phase set_game_over set_round set_transitioning
     set_show_ms_current set_flash_phase set_flash_interval_ms
     set_sequence_timer set_feedback_timer set_transition_timer
     set_flash_timer btn_code in_array MAX_SEQUENCE negb andb orb
     gm hd pending next_handle rand_calls out reads
     s_sequence s_seq_len s_input_index s_showing s_show_index s_show_phase
     s_game_over s_round s_transitioning s_show_ms_current s_flash_phase
     s_flash_interval_ms
     s_sequence_timer s_feedback_timer s_transition_timer s_flash_timer].

(** The helpers that [run_prog] leaves folded. *)
Ltac run_helpers :=
  cbv beta iota zeta delta
    [highlight_glyph update_info_layer cancel_if_set schedule_sequence_timer
     start_flash_animation start_round_transition end_game].

(** Compute the projections and setters applied to explicit records. *)
Ltac fields_goal :=
  cbn beta iota delta
    [gm hd pending next_handle rand_calls out reads
     s_sequence s_seq_len s_input_index s_showing s_show_index s_show_phase
     s_game_over s_round s_transitioning s_show_ms_current s_flash_phase
     s_flash_interval_ms
     s_sequence_timer s_feedback_timer s_transition_timer s_flash_timer
     set_sequence set_seq_len set_input_index set_showing set_show_index
     set_show_phase set_game_over set_round set_transitioning
     set_show_ms_current set_flash_phase set_flash_interval_ms
     set_sequence_timer set_feedback_timer set_transition_timer
     set_flash_timer].

Ltac fields :=
  cbn beta iota delta
    [gm hd pending next_handle rand_calls out reads
     s_sequence s_seq_len s_input_index s_showing s_show_index s_show_phase
     s_game_over s_round s_transitioning s_show_ms_current s_flash_phase
     s_flash_interval_ms
     s_sequence_timer s_feedback_timer s_transition_timer s_flash_timer
     set_sequence set_seq_len set_input_index set_showing set_show_index
     set_show_phase set_game_over set_round set_transitioning
     set_show_ms_current set_flash_phase set_flash_interval_ms
     set_sequence_timer set_feedback_timer set_transition_timer
     set_flash_timer] in *.

(** Name the fields of a world, so that the projections compute. *)
Ltac open_world w :=
  destruct w as [[sq len idx showing sidx phase over round trans showms
                   fphase fint]
                 [seqt fbt trt flt] pend nh rc o rs];
  fields.

(** Decide a comparison that the context settles. *)
Ltac settle_cmp :=
  match goal with
  | |- context [?a >=? ?b] =>
      rewrite (Z.geb_leb a b)
  | |- context [?a >? ?b] =>
      rewrite (Z.gtb_ltb a b)
  | |- context [?a <=? ?b] =>
      first [ replace (a <=? b) with true by (symmetry; apply Z.leb_le; lia)
            | replace (a <=? b) with false by (symmetry; apply Z.leb_gt; lia) ]
  | |- context [?a <? ?b] =>
      first [ replace (a <? b) with true by (symmetry; apply Z.ltb_lt; lia)
            | replace (a <? b) with false by (symmetry; apply Z.ltb_ge; lia) ]
  | |- context [?a =? ?b] =>
      first [ replace (a =? b) with true by (symmetry; apply Z.eqb_eq; lia)
            | replace (a =? b) with false by (symmetry; apply Z.eqb_neq; lia) ]
  end.

(** Continue after a test has been settled. *)
Ltac resume := cbv beta iota zeta delta [negb andb orb].

Section Proofs.

Variable rnd : nat -> N.
Variable chalk : bool.

(** *** What the straight-line helpers compute *)

Lemma highlight_glyph_run (i : Z) (on : bool) (w : world) :
  highlight_glyph i on w =
  Some (tt, mkWorld (gm w) (hd w) (pending w) (next_handle w) (rand_calls w)
              (out w ++ glyph_fx i on) (reads w)).
Proof.
  unfold highlight_glyph, glyph_fx, ret, emit.
  destruct ((i <? 0) || (i >? 2)); [| reflexivity].
  rewrite app_nil_r. now destruct w.
Qed.

Lemma update_info_layer_run (w : world) :
  update_info_layer w =
  Some (tt, mkWorld (gm w) (hd w) (pending w) (next_handle w) (rand_calls w)
              (out w ++ [FxInfo (info_text (gm w))]) (reads w)).
Proof.
  open_world w. run_helpers. run_prog. unfold info_text. fields_goal.
  destruct over; [destruct (len =? 0) |]; reflexivity.
Qed.

Lemma cancel_if_set_run (slot : handles -> option nat) (w : world) :
  cancel_if_set slot w =
  Some (tt, mkWorld (gm w) (hd w) (cancel_slot (slot (hd w)) (pending w))
              (next_handle w) (rand_calls w) (out w) (reads w)).
Proof.
  unfold cancel_if_set, bind, rdh. fields_goal.
  destruct (slot (hd w)); destruct w; reflexivity.
Qed.

Lemma schedule_sequence_timer_run (ms : Z) (w : world) :
  schedule_sequence_timer ms w =
  Some (tt, mkWorld (gm w) (set_sequence_timer (Some (next_handle w)) (hd w))
              (cancel_slot (s_sequence_timer (hd w)) (pending w) ++
               [mkTimer (next_handle w) ms CbSequenceTimer])
              (S (next_handle w)) (rand_calls w) (out w) (reads w)).
Proof.
  unfold schedule_sequence_timer, bind. rewrite cancel_if_set_run.
  destruct w. reflexivity.
Qed.

Lemma end_game_run (w : world) :
  end_game w =
  Some (tt, mkWorld (set_showing false (set_game_over true (gm w)))
              (set_sequence_timer None (hd w))
              (cancel_slot (s_sequence_timer (hd w)) (pending w))
              (next_handle w) (rand_calls w)
              (out w ++
               [FxInfo (info_text (set_showing false (set_game_over true (gm w))));
                FxMessage "Game Over";
                FxLayout (s_seq_len (gm w) =? 0)
                  (if negb (s_seq_len (gm w) =? 0) then 44 else 28)])
              (reads w)).
Proof.
  open_world w. unfold end_game, bind, wr, rdh. fields_goal.
  destruct seqt; run_prog; rewrite update_info_layer_run; fields_goal;
    resume; rewrite <- ?app_assoc; reflexivity.
Qed.

Lemma start_round_transition_run (w : world) :
  start_round_transition chalk w =
  Some (tt,
        mkWorld
          (set_flash_interval_ms (if chalk then 180 else 140)
             (set_flash_phase 0
                (set_showing false (set_transitioning true (gm w)))))
          (set_transition_timer (Some (S (next_handle w)))
             (set_flash_timer (Some (next_handle w)) (hd w)))
          (cancel_slot (s_transition_timer (hd w))
             (cancel_slot (s_flash_timer (hd w)) (pending w) ++
              [mkTimer (next_handle w) (if chalk then 180 else 140)
                 (CbFlashTick (flash_cycles (s_seq_len (gm w))))]) ++
           [mkTimer (S (next_handle w))
              (150 * flash_cycles (s_seq_len (gm w)) + 200) CbRoundTransition])
          (S (S (next_handle w))) (rand_calls w)
          (out w ++ [FxVibe VibeDouble] ++ milestone_fx (s_seq_len (gm w)) ++
           [FxMessage ("Length " ++ fmt_d (s_seq_len (gm w)))%string;
            FxFlashDirty])
          (reads w)).
Proof.
  open_world w. run_helpers. run_prog. unfold milestone_fx, flash_cycles.
  fields_goal.
  destruct (len =? 4), (len =? 6), (len =? 8), flt, trt;
    run_prog; unfold cancel_slot; rewrite <- ?app_assoc; reflexivity.
Qed.

(** Settle every test the hypotheses decide, and keep executing. *)
Ltac advance :=
  resume;
  repeat (first
    [ rewrite highlight_glyph_run; fields_goal
    | rewrite update_info_layer_run; fields_goal
    | rewrite cancel_if_set_run; fields_goal
    | rewrite schedule_sequence_timer_run; fields_goal
    | rewrite end_game_run; fields_goal
    | rewrite start_round_transition_run; fields_goal
    | settle_cmp
    | match goal with
      | H : ?l !! ?n = Some _ |- context [?l !! ?n] => rewrite H
      | |- context [<[?n:=?v]> ?l !! ?n] =>
          rewrite (list_lookup_insert_eq l n v) by lia
      end ];
    resume).

(** ** Ignored input *)

Lemma handle_input_blocked (pressed : Z) (w : world) :
  s_showing (gm w) = true \/ s_transitioning (gm w) = true \/
  s_game_over (gm w) = true ->
  handle_input rnd chalk pressed w = Some (tt, w).
Proof.
  intros H. open_world w. run_prog.
  destruct showing; [reflexivity |].
  destruct trans; [reflexivity |].
  destruct over; [reflexivity |].
  destruct H as [H | [H | H]]; discriminate.
Qed.

(** ** Start of a game *)

Lemma select_restart (w : world) :
  s_game_over (gm w) = true ->
  length (s_sequence (gm w)) = 8%nat ->
  exists w', step rnd chalk w (Press SEQ_BTN_SELECT) = Some w' /\
    s_sequence (gm w') =
      <[0%nat := Z.rem (Z.of_N (rnd (rand_calls w))) 3]> (s_sequence (gm w)) /\
    rand_calls w' = S (rand_calls w) /\
    s_seq_len (gm w') = 1 /\ s_round (gm w') = 1 /\
    s_input_index (gm w') = 0 /\ s_show_index (gm w') = 0 /\
    s_show_phase (gm w') = 1 /\
    s_showing (gm w') = true /\ s_game_over (gm w') = false /\
    s_transitioning (gm w') = false /\
    s_sequence_timer (hd w') = Some (next_handle w) /\
    pending w' = pending w ++ [mkTimer (next_handle w) 700 CbSequenceTimer].
Proof.
  intros Hover Hlen. open_world w. subst over.
  destruct (lookup_lt_is_Some_2 sq 0%nat) as [x Hx]; [lia |].
  eexists. split.
  { run_prog. advance. change (Z.to_nat 0) with 0%nat. advance.
    change (Z.to_nat (0 + 1 - 1)) with 0%nat. advance.
    unfold cancel_slot. reflexivity. }
  fields. repeat split.
Qed.

(** C7: while the session is showing, transitioning or game-over, an UP or
    DOWN press returns normally and leaves the whole world as it was (the
    statics, the timers and the output alike); a SELECT press does the same
    unless the game is over, in which case it restarts the game and the
    game-over flag falls. *)
Theorem press_ignored_while_blocked (w : world) :
  s_showing (gm w) = true \/ s_transitioning (gm w) = true \/
  s_game_over (gm w) = true ->
  step rnd chalk w (Press SEQ_BTN_UP) = Some w /\
  step rnd chalk w (Press SEQ_BTN_DOWN) = Some w /\
  (s_game_over (gm w) = false ->
   step rnd chalk w (Press SEQ_BTN_SELECT) = Some w) /\
  (s_game_over (gm w) = true -> length (s_sequence (gm w)) = 8%nat ->
   exists w', step rnd chalk w (Press SEQ_BTN_SELECT) = Some w' /\
              s_game_over (gm w') = false /\ gm w' <> gm w).
Proof.
  intros H.
  assert (Hin : forall p, handle_input rnd chalk p w = Some (tt, w))
    by (intros p; now apply handle_input_blocked).
  split; [| split; [| split]].
  - unfold step, exec, click_handler, prv_up_click_handler.
    now rewrite Hin.
  - unfold step, exec, click_handler, prv_down_click_handler.
    now rewrite Hin.
  - intros Hover.
    unfold step, exec, click_handler, prv_select_click_handler, bind, rd.
    rewrite Hover. now rewrite Hin.
  - intros Hover Hlen.
    destruct (select_restart w Hover Hlen) as (w' & Hstep & Hrest).
    exists w'. split; [exact Hstep |].
    assert (Hg : s_game_over (gm w') = false) by tauto.
    split; [exact Hg |]. intros Heq. rewrite Heq in Hg. congruence.
Qed.

(** C6: after [prv_init] the session has length 0, round 0 and is game-over
    with nothing showing; a SELECT press in any game-over state puts one
    random step in slot 0, and leaves length 1, round 1, both cursors at 0
    and the session showing, the first step already on display and the
    playback timer armed. *)
Theorem select_starts_first_round :
  (exists w0, boot = Some w0 /\
     s_seq_len (gm w0) = 0 /\ s_round (gm w0) = 0 /\
     s_game_over (gm w0) = true /\ s_showing (gm w0) = false /\
     s_transitioning (gm w0) = false /\ pending w0 = []) /\
  (forall w : world,
     s_game_over (gm w) = true ->
     length (s_sequence (gm w)) = 8%nat ->
     exists w', step rnd chalk w (Press SEQ_BTN_SELECT) = Some w' /\
       s_sequence (gm w') =
         <[0%nat := Z.rem (Z.of_N (rnd (rand_calls w))) 3]> (s_sequence (gm w)) /\
       rand_calls w' = S (rand_calls w) /\
       s_seq_len (gm w') = 1 /\ s_round (gm w') = 1 /\
       s_input_index (gm w') = 0 /\ s_show_index (gm w') = 0 /\
       s_show_phase (gm w') = 1 /\
       s_showing (gm w') = true /\ s_game_over (gm w') = false /\
       s_transitioning (gm w') = false /\
       s_sequence_timer (hd w') = Some (next_handle w) /\
       pending w' =
         pending w ++ [mkTimer (next_handle w) 700 CbSequenceTimer]).
Proof.
  split.
  - eexists. split; [reflexivity |]. repeat split.
  - exact select_restart.
Qed.

(** ** A wrong press *)

Lemma cancel_slot_gone (h : nat) (l : list AppTimer) :
  h ∉ map t_handle (cancel_slot (Some h) l).
Proof.
  simpl. intros Hin. apply list_elem_of_fmap in Hin as (t & -> & Ht).
  apply list_elem_of_filter in Ht as [Hne _]. now apply Hne.
Qed.

(** C2: in a state that accepts input, whatever the input cursor, a press
    of a button other than the expected step [s_sequence[s_input_index]]
    sets game-over, leaves showing false, cancels the timer stored in
    [s_sequence_timer] and clears that handle, and presents "Game Over";
    every other static (sequence, length, both cursors, round) is as
    before. *)
Theorem wrong_press_ends_game (w : world) (b : SequenceButton) (expected : Z) :
  s_showing (gm w) = false ->
  s_transitioning (gm w) = false ->
  s_game_over (gm w) = false ->
  0 <= s_input_index (gm w) < s_seq_len (gm w) ->
  s_seq_len (gm w) <= MAX_SEQUENCE ->
  s_sequence (gm w) !! Z.to_nat (s_input_index (gm w)) = Some expected ->
  btn_code b <> expected ->
  exists w', step rnd chalk w (Press b) = Some w' /\
    gm w' = set_game_over true (gm w) /\
    s_showing (gm w') = false /\
    s_sequence_timer (hd w') = None /\
    pending w' =
      cancel_slot (s_sequence_timer (hd w))
        (cancel_slot (s_feedback_timer (hd w)) (pending w) ++
         [mkTimer (next_handle w) 150 (CbClearGlyph (btn_code b))]) /\
    (forall h, s_sequence_timer (hd w) = Some h ->
               h ∉ map t_handle (pending w')) /\
    out w' =
      out w ++
      [FxGlyph (btn_code b) true; FxVibe VibeLong;
       FxInfo ("Press Select to Restart" ++ newline ++ "Round: " ++
               fmt_d (s_round (gm w)))%string;
       FxMessage "Game Over"; FxLayout false 44].
Proof.
  intros Hshow Htrans Hover Hidx Hlen Hexp Hne.
  open_world w. subst showing trans over. unfold MAX_SEQUENCE in Hlen.
  assert (Hstep : exists w',
    step rnd chalk
      (mkWorld (mkGame sq len idx false sidx phase false round false showms
                  fphase fint)
         (mkHandles seqt fbt trt flt) pend nh rc o rs) (Press b) = Some w' /\
    gm w' = mkGame sq len idx false sidx phase true round false showms
              fphase fint /\
    s_sequence_timer (hd w') = None /\
    pending w' =
      cancel_slot seqt
        (cancel_slot fbt pend ++ [mkTimer nh 150 (CbClearGlyph (btn_code b))]) /\
    out w' =
      o ++ [FxGlyph (btn_code b) true; FxVibe VibeLong;
            FxInfo ("Press Select to Restart" ++ newline ++ "Round: " ++
                    fmt_d round)%string;
            FxMessage "Game Over"; FxLayout false 44]).
  { destruct b, seqt as [sh |], fbt as [fh |]; cbn [btn_code] in *;
      (eexists; split;
       [ run_prog; advance; unfold glyph_fx, info_text; fields_goal; advance;
         reflexivity
       | fields; unfold cancel_slot;
         rewrite <- ?app_assoc; repeat split ]). }
  destruct Hstep as (w' & Hstep & Hgm & Hslot & Hpend & Hout).
  exists w'. rewrite Hgm. repeat split; try assumption.
  intros h ->. rewrite Hpend. apply cancel_slot_gone.
Qed.

(** ** Completing a round *)

Lemma find_timer_app (h : nat) (l1 l2 : list AppTimer) :
  find_timer h (l1 ++ l2) =
  match find_timer h l1 with
  | Some t => Some t
  | None => find_timer h l2
  end.
Proof.
  unfold find_timer. induction l1 as [| t l1 IH]; simpl; [reflexivity |].
  destruct (Nat.eqb (t_handle t) h); [reflexivity | exact IH].
Qed.

Lemma find_timer_fresh (n h : nat) (l : list AppTimer) :
  fresh_below n l -> (n <= h)%nat -> find_timer h l = None.
Proof.
  unfold fresh_below, find_timer.
  induction 1 as [| t l Ht _ IH]; intros Hh; simpl; [reflexivity |].
  destruct (Nat.eqb_spec (t_handle t) h); [lia | auto].
Qed.

Lemma find_timer_last (h : nat) (ms : Z) (cb : callback) (l : list AppTimer) :
  fresh_below h l -> find_timer h (l ++ [mkTimer h ms cb]) = Some (mkTimer h ms cb).
Proof.
  intros Hl. rewrite find_timer_app, (find_timer_fresh h h l Hl) by lia.
  unfold find_timer. simpl. now rewrite Nat.eqb_refl.
Qed.

Lemma fresh_below_cancel (n : nat) (slot : option nat) (l : list AppTimer) :
  fresh_below n l -> fresh_below n (cancel_slot slot l).
Proof.
  unfold fresh_below. intros H. destruct slot as [h |]; simpl; [| exact H].
  apply Forall_forall. intros t Ht. apply list_elem_of_filter in Ht as [_ Ht].
  rewrite Forall_forall in H. auto.
Qed.

Lemma fresh_below_mono (n m : nat) (l : list AppTimer) :
  fresh_below n l -> (n <= m)%nat -> fresh_below m l.
Proof.
  unfold fresh_below. intros H Hnm. eapply Forall_impl; [exact H |].
  simpl. intros t Ht. lia.
Qed.

Lemma fresh_below_snoc (n : nat) (ms : Z) (cb : callback) (l : list AppTimer) :
  fresh_below n l -> fresh_below (S n) (l ++ [mkTimer n ms cb]).
Proof.
  intros H. apply Forall_app. split.
  - apply (fresh_below_mono n); [exact H | lia].
  - repeat constructor.
Qed.

(** The round-transition timer expires: [round_transition_callback]. *)
Lemma transition_fire (w : world) (h : nat) (t : AppTimer) (s0 : Z) :
  find_timer h (pending w) = Some t ->
  t_cb t = CbRoundTransition ->
  s_sequence (gm w) !! 0%nat = Some s0 ->
  1 <= s_seq_len (gm w) ->
  exists w', step rnd chalk w (Fire h) = Some w' /\
    gm w' = mkGame (s_sequence (gm w)) (s_seq_len (gm w)) 0 true 0 1 false
              (s_seq_len (gm w)) false (calc_show_ms (s_seq_len (gm w))) 0
              (s_flash_interval_ms (gm w)) /\
    hd w' = mkHandles (Some (next_handle w)) (s_feedback_timer (hd w))
              None None /\
    pending w' =
      cancel_slot (s_flash_timer (hd w))
        (cancel_slot (Some h) (pending w)) ++
      [mkTimer (next_handle w) (calc_show_ms (s_seq_len (gm w)))
         CbSequenceTimer] /\
    next_handle w' = S (next_handle w) /\
    out w' =
      out w ++
      [FxFlashDirty; FxInfo ("Round: " ++ fmt_d (s_seq_len (gm w)))%string;
       FxMessage (button_name s0)] ++ glyph_fx s0 true ++ [FxLayout false 28].
Proof.
  intros Hfind Hcb H0 Hlen. open_world w.
  destruct flt as [fh |];
    (eexists; split;
     [ run_prog; rewrite Hfind, Hcb; run_prog; advance;
       change (Z.to_nat 0) with 0%nat; advance; reflexivity
     | fields; unfold cancel_slot, info_text; fields;
       rewrite <- ?app_assoc; repeat split ]).
Qed.


Lemma milestone_rule (n : Z) :
  (n = 4 \/ n = 6 -> milestone_fx n = [FxVibe VibeShort] /\ flash_cycles n = 5) /\
  (n = 8 -> milestone_fx n = [FxVibe VibeLong] /\ flash_cycles n = 7) /\
  (n <> 4 -> n <> 6 -> n <> 8 -> milestone_fx n = [] /\ flash_cycles n = 3).
Proof.
  unfold milestone_fx, flash_cycles.
  destruct (Z.eqb_spec n 4), (Z.eqb_spec n 6), (Z.eqb_spec n 8);
    simpl; repeat split; intros; try reflexivity; lia.
Qed.

(** The last correct press of a round below the maximum length. *)
Lemma round_complete_press (w : world) (b : SequenceButton) :
  s_showing (gm w) = false ->
  s_transitioning (gm w) = false ->
  s_game_over (gm w) = false ->
  length (s_sequence (gm w)) = 8%nat ->
  0 <= s_input_index (gm w) ->
  s_input_index (gm w) + 1 = s_seq_len (gm w) ->
  s_seq_len (gm w) < MAX_SEQUENCE ->
  s_sequence (gm w) !! Z.to_nat (s_input_index (gm w)) = Some (btn_code b) ->
  exists w', step rnd chalk w (Press b) = Some w' /\
    gm w' =
      mkGame
        (<[Z.to_nat (s_seq_len (gm w)) :=
             Z.rem (Z.of_N (rnd (rand_calls w))) 3]> (s_sequence (gm w)))
        (s_seq_len (gm w) + 1) (s_seq_len (gm w)) false
        (s_show_index (gm w)) (s_show_phase (gm w)) false
        (s_seq_len (gm w) + 1) true (s_show_ms_current (gm w)) 0
        (if chalk then 180 else 140) /\
    hd w' =
      mkHandles (s_sequence_timer (hd w)) (Some (next_handle w))
        (Some (S (S (next_handle w)))) (Some (S (next_handle w))) /\
    pending w' =
      cancel_slot (s_transition_timer (hd w))
        (cancel_slot (s_flash_timer (hd w))
           (cancel_slot (s_feedback_timer (hd w)) (pending w) ++
            [mkTimer (next_handle w) 150 (CbClearGlyph (btn_code b))]) ++
         [mkTimer (S (next_handle w)) (if chalk then 180 else 140)
            (CbFlashTick (flash_cycles (s_seq_len (gm w) + 1)))]) ++
      [mkTimer (S (S (next_handle w)))
         (150 * flash_cycles (s_seq_len (gm w) + 1) + 200)
         CbRoundTransition] /\
    next_handle w' = S (S (S (next_handle w))) /\
    rand_calls w' = S (rand_calls w) /\
    out w' =
      out w ++
      [FxGlyph (btn_code b) true; FxVibe VibeShort;
       FxInfo ("Round: " ++ fmt_d (s_seq_len (gm w) + 1))%string;
       FxVibe VibeDouble] ++
      milestone_fx (s_seq_len (gm w) + 1) ++
      [FxMessage ("Length " ++ fmt_d (s_seq_len (gm w) + 1))%string;
       FxFlashDirty] /\
    reads w' =
      reads w ++
      [(s_input_index (gm w), s_seq_len (gm w));
       (s_input_index (gm w), s_seq_len (gm w));
       (s_seq_len (gm w), s_seq_len (gm w) + 1)].
Proof.
  intros Hshow Htrans Hover Harr Hidx Hlast Hlen Hexp.
  open_world w. subst showing trans over len. unfold MAX_SEQUENCE in Hlen.
  destruct (lookup_lt_is_Some_2 sq (Z.to_nat (idx + 1))) as [y Hy]; [lia |].
  destruct b, fbt as [fh |]; cbn [btn_code] in *;
    (eexists; split;
     [ run_prog; advance; unfold glyph_fx; advance;
       replace (idx + 1 + 1 - 1) with (idx + 1) by lia; advance;
       unfold info_text; fields_goal; reflexivity
     | fields; unfold cancel_slot at 3; rewrite <- ?app_assoc;
       repeat split ]).
Qed.

(** ** Playback *)

Lemma playing_rearmed (arr : list Z) (L i ph ms : Z) (g : game) (h : handles)
    (l : list AppTimer) (n rc : nat) (o : list effect) (rs : list (Z * Z)) :
  s_sequence g = arr -> s_seq_len g = L -> s_showing g = true ->
  s_show_index g = i -> s_show_phase g = ph ->
  s_transitioning g = false -> s_game_over g = false ->
  s_sequence_timer h = Some n -> fresh_below n l ->
  playing arr L i ph
    (mkWorld g h (l ++ [mkTimer n ms CbSequenceTimer]) (S n) rc o rs).
Proof.
  intros. constructor; fields_goal; try assumption.
  - exists n, (mkTimer n ms CbSequenceTimer).
    repeat split; [assumption | now apply find_timer_last].
  - now apply fresh_below_snoc.
Qed.

Lemma tick_display (arr : list Z) (L i s : Z) (w : world) :
  playing arr L i 0 w -> 0 <= i < L -> L <= MAX_SEQUENCE ->
  arr !! Z.to_nat i = Some s ->
  exists w', playback_tick rnd chalk w = Some w' /\ playing arr L i 1 w' /\
             out w' = out w ++ display_cue s.
Proof.
  intros [Hsq HL Hshow Hi Hph Htr Hov (h & t & Hslot & Hfind & Hcb) Hfresh] Hrange
    Hmax Hs.
  open_world w. subst sq len showing sidx phase trans over seqt.
  unfold MAX_SEQUENCE in Hmax. unfold playback_tick. fields_goal.
  eexists. split.
  { run_prog. rewrite Hfind, Hcb. run_prog. advance. reflexivity. }
  split.
  - unfold cancel_slot. apply playing_rearmed; try reflexivity.
    now apply (fresh_below_cancel nh (Some h)).
  - fields_goal. unfold display_cue. now rewrite <- app_assoc.
Qed.

Lemma tick_pause (arr : list Z) (L i s : Z) (w : world) :
  playing arr L i 1 w -> 0 <= i < L -> L <= MAX_SEQUENCE ->
  arr !! Z.to_nat i = Some s ->
  exists w', playback_tick rnd chalk w = Some w' /\ playing arr L (i + 1) 0 w' /\
             out w' = out w ++ pause_cue s.
Proof.
  intros [Hsq HL Hshow Hi Hph Htr Hov (h & t & Hslot & Hfind & Hcb) Hfresh] Hrange
    Hmax Hs.
  open_world w. subst sq len showing sidx phase trans over seqt.
  unfold MAX_SEQUENCE in Hmax. unfold playback_tick. fields_goal.
  eexists. split.
  { run_prog. rewrite Hfind, Hcb. run_prog. advance. reflexivity. }
  split.
  - unfold cancel_slot. apply playing_rearmed; try reflexivity.
    now apply (fresh_below_cancel nh (Some h)).
  - fields_goal. unfold pause_cue. now rewrite <- app_assoc.
Qed.

Lemma tick_done (arr : list Z) (L : Z) (w : world) :
  playing arr L L 0 w ->
  exists w', playback_tick rnd chalk w = Some w' /\
             gm w' = set_showing false (gm w) /\
             s_sequence_timer (hd w') = None /\
             out w' = out w ++ your_turn_cue.
Proof.
  intros [Hsq HL Hshow Hi Hph Htr Hov (h & t & Hslot & Hfind & Hcb) Hfresh].
  open_world w. subst sq len showing sidx phase trans over seqt.
  unfold playback_tick. fields_goal.
  eexists. split.
  { run_prog. rewrite Hfind, Hcb. run_prog. advance. unfold glyph_fx.
    advance. reflexivity. }
  fields_goal. unfold your_turn_cue. rewrite <- !app_assoc. repeat split.
Qed.

Lemma playback_from (arr : list Z) (L : Z) :
  length arr = 8%nat -> L <= MAX_SEQUENCE ->
  forall (n : nat) (w : world) (i : Z),
    playing arr L i 0 w -> 0 <= i -> L - i = Z.of_nat n ->
    (forall k, (k <= 2 * n)%nat ->
       exists wk, ticks rnd chalk k w = Some wk /\ s_showing (gm wk) = true) /\
    exists w', ticks rnd chalk (S (2 * n)) w = Some w' /\
      s_showing (gm w') = false /\
      s_transitioning (gm w') = false /\ s_game_over (gm w') = false /\
      s_sequence_timer (hd w') = None /\
      out w' =
        out w ++
        pair_cues (drop (Z.to_nat i) (take (Z.to_nat L) arr)) ++
        your_turn_cue.
Proof.
  intros Harr Hmax. induction n as [| m IH]; intros w i Hplay Hi Hn.
  - assert (i = L) by lia. subst i. split.
    + intros k Hk. assert (k = 0%nat) by lia. subst k.
      exists w. split; [reflexivity | apply (pl_showing _ _ _ _ _ Hplay)].
    + destruct (tick_done arr L w Hplay) as (w' & Htick & Hgm & Hslot & Hout).
      exists w'. simpl. rewrite Htick. split; [reflexivity |].
      rewrite Hgm. fields_goal.
      split; [reflexivity |].
      split; [apply (pl_trans _ _ _ _ _ Hplay) |].
      split; [apply (pl_over _ _ _ _ _ Hplay) |]. split; [exact Hslot |].
      rewrite Hout, drop_ge; [reflexivity |]. rewrite length_take. lia.
  - unfold MAX_SEQUENCE in Hmax.
    destruct (lookup_lt_is_Some_2 arr (Z.to_nat i)) as [s Hs]; [lia |].
    destruct (tick_display arr L i s w Hplay) as (w1 & Ht1 & Hp1 & Ho1);
      [lia | exact Hmax | exact Hs |].
    destruct (tick_pause arr L i s w1 Hp1) as (w2 & Ht2 & Hp2 & Ho2);
      [lia | exact Hmax | exact Hs |].
    destruct (IH w2 (i + 1) Hp2)
      as [Hmid (w' & Hrun & Hsh & Htr & Hov & Hslot & Hout)];
      [lia | lia |].
    replace (2 * S m)%nat with (S (S (2 * m))) by lia. split.
    + intros [| [| k]] Hk.
      * exists w. split; [reflexivity | apply (pl_showing _ _ _ _ _ Hplay)].
      * exists w1. simpl. rewrite Ht1.
        split; [reflexivity | apply (pl_showing _ _ _ _ _ Hp1)].
      * simpl. rewrite Ht1, Ht2. apply Hmid. lia.
    + exists w'.
      split; [| repeat (split; [assumption |])].
      * change (ticks rnd chalk (S (S (S (2 * m)))) w)
          with (match playback_tick rnd chalk w with
                | Some w0 =>
                    match playback_tick rnd chalk w0 with
                    | Some w3 => ticks rnd chalk (S (2 * m)) w3
                    | None => None
                    end
                | None => None
                end).
        now rewrite Ht1, Ht2.
      * rewrite Hout, Ho2, Ho1.
        rewrite (drop_S (take (Z.to_nat L) arr) s (Z.to_nat i))
          by (rewrite lookup_take_lt by lia; exact Hs).
        replace (Z.to_nat (i + 1)) with (S (Z.to_nat i)) by lia.
        unfold pair_cues. simpl. now rewrite <- !app_assoc.
Qed.

(** C1: [begin_round] on a sequence of length [L], [1 <= L <= 8], shows
    the first step at once, before any timer fires, and arms the playback
    timer with the round's show duration; the next [2 * L] expiries of the
    playback timer all find it pending; the session is showing after each
    of the first [2 * L - 1] and stops showing at the last, when the glyphs
    are cleared and "Your turn" is presented.  What was sent to the display
    in between is the display and pause cue of [s_sequence[0]], ...,
    [s_sequence[L - 1]], in this order, each pair once. *)
Theorem playback_presents_sequence (w : world) (s0 : Z) :
  length (s_sequence (gm w)) = 8%nat ->
  1 <= s_seq_len (gm w) <= MAX_SEQUENCE ->
  fresh_below (next_handle w) (pending w) ->
  s_sequence (gm w) !! 0%nat = Some s0 ->
  let L := s_seq_len (gm w) in
  let steps := take (Z.to_nat L) (s_sequence (gm w)) in
  exists w1, exec begin_round w = Some w1 /\
    s_showing (gm w1) = true /\
    out w1 =
      out w ++ [FxInfo ("Round: " ++ fmt_d L)%string] ++ display_cue s0 ++
      [FxLayout false 28] /\
    s_sequence_timer (hd w1) = Some (next_handle w) /\
    find_timer (next_handle w) (pending w1) =
      Some (mkTimer (next_handle w) (calc_show_ms L) CbSequenceTimer) /\
    (forall k, (k < 2 * Z.to_nat L)%nat ->
       exists wk, ticks rnd chalk k w1 = Some wk /\ s_showing (gm wk) = true) /\
    exists w2, ticks rnd chalk (2 * Z.to_nat L) w1 = Some w2 /\
      s_showing (gm w2) = false /\
      s_transitioning (gm w2) = false /\ s_game_over (gm w2) = false /\
      s_sequence_timer (hd w2) = None /\
      out w2 =
        out w ++ [FxInfo ("Round: " ++ fmt_d L)%string] ++ display_cue s0 ++
        [FxLayout false 28] ++ pause_cue s0 ++ pair_cues (drop 1 steps) ++
        your_turn_cue /\
      display_cue s0 ++ pause_cue s0 ++ pair_cues (drop 1 steps) =
        pair_cues steps /\
      length steps = Z.to_nat L.
Proof.
  intros Harr Hlen Hfresh Hs0 L steps.
  assert (Hbegin : exists w1, exec begin_round w = Some w1 /\
    playing (s_sequence (gm w)) L 0 1 w1 /\
    out w1 =
      out w ++ [FxInfo ("Round: " ++ fmt_d L)%string] ++ display_cue s0 ++
      [FxLayout false 28] /\
    s_sequence_timer (hd w1) = Some (next_handle w) /\
    find_timer (next_handle w) (pending w1) =
      Some (mkTimer (next_handle w) (calc_show_ms L) CbSequenceTimer)).
  { subst L steps. open_world w. unfold MAX_SEQUENCE in Hlen.
    eexists. split.
    { run_prog. advance. change (Z.to_nat 0) with 0%nat. advance.
      reflexivity. }
    unfold cancel_slot, info_text, display_cue. fields_goal. split.
    { apply playing_rearmed; try reflexivity. exact Hfresh. }
    rewrite <- !app_assoc. repeat split. now apply find_timer_last. }
  destruct Hbegin as (w1 & Hexec & Hplay & Hout & Hslot & Hfind).
  exists w1. split; [exact Hexec |].
  split; [apply (pl_showing _ _ _ _ _ Hplay) |].
  repeat (split; [assumption |]).
  destruct (tick_pause _ L 0 s0 w1 Hplay) as (wp & Htp & Hpp & Hop);
    [lia | tauto | exact Hs0 |].
  destruct (playback_from (s_sequence (gm w)) L Harr (proj2 Hlen)
              (Z.to_nat (L - 1)) wp (0 + 1) Hpp) as
    [Hmid (w2 & Hrun & Hsh & Htr2 & Hov2 & Hslot2 & Hout2)]; [lia | lia |].
  assert (Hticks : (2 * Z.to_nat L = S (S (2 * Z.to_nat (L - 1))))%nat)
    by lia.
  assert (Hsteps : steps = s0 :: drop 1 steps).
  { subst steps. rewrite <- (drop_S _ s0 0%nat); [reflexivity |].
    rewrite lookup_take_lt by lia. exact Hs0. }
  split.
  - intros [| k] Hk.
    + exists w1. split; [reflexivity | apply (pl_showing _ _ _ _ _ Hplay)].
    + simpl. rewrite Htp. apply Hmid. lia.
  - exists w2. rewrite Hticks.
    split; [simpl; rewrite Htp; exact Hrun |].
    repeat (split; [assumption |]).
    split; [| split].
    + rewrite Hout2, Hop, Hout. change (Z.to_nat (0 + 1)) with 1%nat.
      fold steps. now rewrite <- !app_assoc.
    + rewrite Hsteps at 2. unfold pair_cues. simpl.
      now rewrite <- !app_assoc.
    + subst steps. rewrite length_take. unfold MAX_SEQUENCE in Hlen. lia.
Qed.


(** ** The four timer slots *)

Lemma cat_eqb_eq (a b : category) : cat_eqb a b = true <-> a = b.
Proof. destruct a, b; simpl; split; intros; congruence. Qed.

Lemma handles_of_app (c : category) (l1 l2 : list AppTimer) :
  handles_of c (l1 ++ l2) = handles_of c l1 ++ handles_of c l2.
Proof.
  induction l1 as [| t l1 IH]; simpl; [reflexivity |].
  destruct (cat_eqb (cb_cat (t_cb t)) c); simpl; now rewrite IH.
Qed.

Lemma handles_of_cancel (c : category) (h : nat) (l : list AppTimer) :
  handles_of c (cancel_slot (Some h) l) =
  filter (fun x => x <> h) (handles_of c l).
Proof.
  simpl. induction l as [| t l IH]; [reflexivity |].
  rewrite filter_cons. simpl.
  destruct (decide (t_handle t <> h)) as [Hne | Heq];
    destruct (cat_eqb (cb_cat (t_cb t)) c) eqn:Hc; simpl; rewrite ?Hc;
    rewrite ?filter_cons; try destruct (decide (t_handle t <> h));
    try contradiction; now rewrite IH.
Qed.

Lemma handles_of_sub (c : category) (h : nat) (l : list AppTimer) :
  h ∈ handles_of c l -> h ∈ map t_handle l.
Proof.
  induction l as [| t l IH]; simpl; [easy |].
  destruct (cat_eqb (cb_cat (t_cb t)) c).
  - rewrite !elem_of_cons. intros [-> | H]; auto.
  - rewrite elem_of_cons. auto.
Qed.

Lemma handles_of_disjoint (c c' : category) (h : nat) (l : list AppTimer) :
  NoDup (map t_handle l) -> c <> c' ->
  h ∈ handles_of c l -> h ∉ handles_of c' l.
Proof.
  intros Hnd Hcc. induction l as [| t l IH]; simpl; [easy |].
  simpl in Hnd. apply NoDup_cons in Hnd as [Hnot Hnd].
  destruct (cat_eqb (cb_cat (t_cb t)) c) eqn:Hc,
    (cat_eqb (cb_cat (t_cb t)) c') eqn:Hc'.
  - apply cat_eqb_eq in Hc, Hc'. congruence.
  - rewrite elem_of_cons. intros [-> | Hin] Hin'.
    + apply handles_of_sub in Hin'. contradiction.
    + now apply IH.
  - rewrite elem_of_cons. intros Hin [-> | Hin'].
    + apply handles_of_sub in Hin. contradiction.
    + now apply IH.
  - auto.
Qed.

Lemma find_timer_Some (h : nat) (l : list AppTimer) (t : AppTimer) :
  find_timer h l = Some t ->
  t_handle t = h /\ h ∈ handles_of (cb_cat (t_cb t)) l.
Proof.
  unfold find_timer. induction l as [| t0 l IH]; simpl; [discriminate |].
  destruct (Nat.eqb_spec (t_handle t0) h) as [Heq | Hne].
  - intros [= ->]. split; [exact Heq |].
    replace (cat_eqb (cb_cat (t_cb t)) (cb_cat (t_cb t))) with true
      by (symmetry; now apply cat_eqb_eq).
    rewrite Heq. apply elem_of_cons. now left.
  - intros Hf. destruct (IH Hf) as [H1 H2]. split; [exact H1 |].
    destruct (cat_eqb (cb_cat (t_cb t0)) (cb_cat (t_cb t)));
      [apply elem_of_cons; now right | exact H2].
Qed.

Lemma NoDup_cancel (slot : option nat) (l : list AppTimer) :
  NoDup (map t_handle l) -> NoDup (map t_handle (cancel_slot slot l)).
Proof.
  destruct slot as [h |]; simpl; [| easy].
  induction l as [| t l IH]; simpl; [easy |].
  intros Hnd. apply NoDup_cons in Hnd as [Hnot Hnd].
  rewrite filter_cons. destruct (decide (t_handle t <> h)); [| now apply IH].
  simpl. apply NoDup_cons. split; [| now apply IH].
  intros Hin. apply Hnot. apply list_elem_of_fmap in Hin as (t' & -> & Ht').
  apply list_elem_of_filter in Ht' as [_ Ht'].
  apply list_elem_of_fmap. now exists t'.
Qed.

Lemma filter_ne_singleton (h : nat) : filter (fun x => x <> h) [h] = [].
Proof.
  rewrite filter_cons. destruct (decide (h <> h)); [contradiction | reflexivity].
Qed.

Lemma filter_ne_slot (h : nat) (slot : option nat) :
  h ∉ slot_list slot -> filter (fun x => x <> h) (slot_list slot) = slot_list slot.
Proof.
  destruct slot as [y |]; simpl; [| reflexivity]. intros Hnot.
  rewrite filter_cons. destruct (decide (y <> h)) as [_ | Heq]; [reflexivity |].
  exfalso. apply Hnot. apply list_elem_of_singleton.
  destruct (Nat.eq_dec y h); [congruence | contradiction].
Qed.

(** Cancelling the timer a slot holds leaves the other categories alone. *)
Lemma cancel_owned (c c' : category) (x : nat) (l : list AppTimer)
    (slot' : option nat) :
  NoDup (map t_handle l) -> handles_of c l = [x] ->
  handles_of c' l = slot_list slot' ->
  handles_of c' (cancel_slot (Some x) l) =
  if cat_eqb c c' then [] else slot_list slot'.
Proof.
  intros Hnd Hc Hc'. rewrite handles_of_cancel.
  destruct (cat_eqb c c') eqn:Hcc.
  - apply cat_eqb_eq in Hcc. subst c'. rewrite Hc. apply filter_ne_singleton.
  - rewrite Hc'. apply filter_ne_slot. rewrite <- Hc'.
    apply (handles_of_disjoint c c'); [exact Hnd | | rewrite Hc; now left].
    intros ->. destruct c'; discriminate.
Qed.


Lemma timers_ok_drop_sequence (s fb tr fl : option nat) (l : list AppTimer)
    (n : nat) :
  timers_ok (mkHandles s fb tr fl) l n ->
  timers_ok (mkHandles None fb tr fl) (cancel_slot s l) n.
Proof.
  unfold timers_ok. fields_goal. intros (Hnd & Hfr & H1 & H2 & H3 & H4).
  destruct s as [x |]; [| repeat split; assumption].
  repeat split; [now apply (NoDup_cancel (Some x)) |
                 now apply (fresh_below_cancel n (Some x)) | ..].
  - apply (cancel_owned CatSequence CatSequence x l (Some x)); assumption.
  - apply (cancel_owned CatSequence CatFeedback x l fb); assumption.
  - apply (cancel_owned CatSequence CatTransition x l tr); assumption.
  - apply (cancel_owned CatSequence CatFlash x l fl); assumption.
Qed.

Lemma timers_ok_drop_feedback (s fb tr fl : option nat) (l : list AppTimer)
    (n : nat) :
  timers_ok (mkHandles s fb tr fl) l n ->
  timers_ok (mkHandles s None tr fl) (cancel_slot fb l) n.
Proof.
  unfold timers_ok. fields_goal. intros (Hnd & Hfr & H1 & H2 & H3 & H4).
  destruct fb as [x |]; [| repeat split; assumption].
  repeat split; [now apply (NoDup_cancel (Some x)) |
                 now apply (fresh_below_cancel n (Some x)) | ..].
  - apply (cancel_owned CatFeedback CatSequence x l s); assumption.
  - apply (cancel_owned CatFeedback CatFeedback x l (Some x)); assumption.
  - apply (cancel_owned CatFeedback CatTransition x l tr); assumption.
  - apply (cancel_owned CatFeedback CatFlash x l fl); assumption.
Qed.

Lemma timers_ok_drop_transition (s fb tr fl : option nat) (l : list AppTimer)
    (n : nat) :
  timers_ok (mkHandles s fb tr fl) l n ->
  timers_ok (mkHandles s fb None fl) (cancel_slot tr l) n.
Proof.
  unfold timers_ok. fields_goal. intros (Hnd & Hfr & H1 & H2 & H3 & H4).
  destruct tr as [x |]; [| repeat split; assumption].
  repeat split; [now apply (NoDup_cancel (Some x)) |
                 now apply (fresh_below_cancel n (Some x)) | ..].
  - apply (cancel_owned CatTransition CatSequence x l s); assumption.
  - apply (cancel_owned CatTransition CatFeedback x l fb); assumption.
  - apply (cancel_owned CatTransition CatTransition x l (Some x)); assumption.
  - apply (cancel_owned CatTransition CatFlash x l fl); assumption.
Qed.

Lemma timers_ok_drop_flash (s fb tr fl : option nat) (l : list AppTimer)
    (n : nat) :
  timers_ok (mkHandles s fb tr fl) l n ->
  timers_ok (mkHandles s fb tr None) (cancel_slot fl l) n.
Proof.
  unfold timers_ok. fields_goal. intros (Hnd & Hfr & H1 & H2 & H3 & H4).
  destruct fl as [x |]; [| repeat split; assumption].
  repeat split; [now apply (NoDup_cancel (Some x)) |
                 now apply (fresh_below_cancel n (Some x)) | ..].
  - apply (cancel_owned CatFlash CatSequence x l s); assumption.
  - apply (cancel_owned CatFlash CatFeedback x l fb); assumption.
  - apply (cancel_owned CatFlash CatTransition x l tr); assumption.
  - apply (cancel_owned CatFlash CatFlash x l (Some x)); assumption.
Qed.

Lemma NoDup_register (l : list AppTimer) (n : nat) (ms : Z) (cb : callback) :
  NoDup (map t_handle l) -> fresh_below n l ->
  NoDup (map t_handle (l ++ [mkTimer n ms cb])).
Proof.
  intros Hnd Hfr. rewrite map_app. apply NoDup_app. split; [exact Hnd |].
  split; [| apply NoDup_singleton].
  intros x Hx Hx'. simpl in Hx'. apply list_elem_of_singleton in Hx'. subst x.
  apply list_elem_of_fmap in Hx as (t & Hn & Ht).
  unfold fresh_below in Hfr. rewrite Forall_forall in Hfr.
  specialize (Hfr t Ht). lia.
Qed.

Lemma timers_ok_arm_sequence (fb tr fl : option nat) (l : list AppTimer)
    (n : nat) (ms : Z) :
  timers_ok (mkHandles None fb tr fl) l n ->
  timers_ok (mkHandles (Some n) fb tr fl)
    (l ++ [mkTimer n ms CbSequenceTimer]) (S n).
Proof.
  unfold timers_ok. fields_goal. intros (Hnd & Hfr & H1 & H2 & H3 & H4).
  rewrite !handles_of_app, H1, H2, H3, H4. simpl. rewrite !app_nil_r.
  repeat split; [now apply NoDup_register | now apply fresh_below_snoc].
Qed.

Lemma timers_ok_arm_feedback (s tr fl : option nat) (l : list AppTimer)
    (n : nat) (ms i : Z) :
  timers_ok (mkHandles s None tr fl) l n ->
  timers_ok (mkHandles s (Some n) tr fl)
    (l ++ [mkTimer n ms (CbClearGlyph i)]) (S n).
Proof.
  unfold timers_ok. fields_goal. intros (Hnd & Hfr & H1 & H2 & H3 & H4).
  rewrite !handles_of_app, H1, H2, H3, H4. simpl. rewrite !app_nil_r.
  repeat split; [now apply NoDup_register | now apply fresh_below_snoc].
Qed.

Lemma timers_ok_arm_transition (s fb fl : option nat) (l : list AppTimer)
    (n : nat) (ms : Z) :
  timers_ok (mkHandles s fb None fl) l n ->
  timers_ok (mkHandles s fb (Some n) fl)
    (l ++ [mkTimer n ms CbRoundTransition]) (S n).
Proof.
  unfold timers_ok. fields_goal. intros (Hnd & Hfr & H1 & H2 & H3 & H4).
  rewrite !handles_of_app, H1, H2, H3, H4. simpl. rewrite !app_nil_r.
  repeat split; [now apply NoDup_register | now apply fresh_below_snoc].
Qed.

Lemma timers_ok_arm_flash (s fb tr : option nat) (l : list AppTimer)
    (n : nat) (ms c : Z) :
  timers_ok (mkHandles s fb tr None) l n ->
  timers_ok (mkHandles s fb tr (Some n))
    (l ++ [mkTimer n ms (CbFlashTick c)]) (S n).
Proof.
  unfold timers_ok. fields_goal. intros (Hnd & Hfr & H1 & H2 & H3 & H4).
  rewrite !handles_of_app, H1, H2, H3, H4. simpl. rewrite !app_nil_r.
  repeat split; [now apply NoDup_register | now apply fresh_below_snoc].
Qed.

(** The prompt timer of [handle_input] is registered beside the slots. *)
Lemma timers_ok_prompt (H : handles) (l : list AppTimer) (n : nat) (ms : Z) :
  timers_ok H l n ->
  timers_ok H (l ++ [mkTimer n ms CbClearFeedback]) (S n).
Proof.
  unfold timers_ok. intros (Hnd & Hfr & H1 & H2 & H3 & H4).
  rewrite !handles_of_app, H1, H2, H3, H4. simpl. rewrite !app_nil_r.
  repeat split; [now apply NoDup_register | now apply fresh_below_snoc].
Qed.

(** A prompt timer that expires leaves the slots' timers in place. *)
Lemma timers_ok_prompt_fired (H : handles) (l : list AppTimer) (n x : nat)
    (t : AppTimer) :
  find_timer x l = Some t -> t_cb t = CbClearFeedback ->
  timers_ok H l n -> timers_ok H (cancel_slot (Some x) l) n.
Proof.
  unfold timers_ok. intros Hf Hcb (Hnd & Hfr & H1 & H2 & H3 & H4).
  apply find_timer_Some in Hf as [_ Hin]. rewrite Hcb in Hin. simpl in Hin.
  assert (Hkeep : forall c slot, c <> CatPrompt ->
            handles_of c l = slot_list slot ->
            handles_of c (cancel_slot (Some x) l) = slot_list slot).
  { intros c slot Hc Hs. rewrite handles_of_cancel, Hs.
    apply filter_ne_slot. rewrite <- Hs.
    apply (handles_of_disjoint CatPrompt c); auto. }
  repeat split; [now apply (NoDup_cancel (Some x)) |
                 now apply (fresh_below_cancel n (Some x)) | ..];
    apply Hkeep; try assumption; discriminate.
Qed.

(** The slot of a pending timer's category holds its handle. *)
Lemma timers_ok_owner (H : handles) (l : list AppTimer) (n x : nat)
    (t : AppTimer) :
  timers_ok H l n -> find_timer x l = Some t ->
  match cb_cat (t_cb t) with
  | CatSequence => s_sequence_timer H = Some x
  | CatFeedback => s_feedback_timer H = Some x
  | CatTransition => s_transition_timer H = Some x
  | CatFlash => s_flash_timer H = Some x
  | CatPrompt => True
  end.
Proof.
  intros (Hnd & Hfr & H1 & H2 & H3 & H4) Hf.
  apply find_timer_Some in Hf as [_ Hin].
  assert (Hslot : forall slot, x ∈ slot_list slot -> slot = Some x).
  { intros [y |]; simpl; intros Hy.
    - apply list_elem_of_singleton in Hy. now subst.
    - now apply elem_of_nil in Hy. }
  destruct (cb_cat (t_cb t)); [| | | | exact I]; apply Hslot.
  - now rewrite <- H1.
  - now rewrite <- H2.
  - now rewrite <- H3.
  - now rewrite <- H4.
Qed.


(** ** The invariant *)

Create HintDb timers.

#[local] Hint Resolve timers_ok_drop_sequence timers_ok_drop_feedback
  timers_ok_drop_transition timers_ok_drop_flash timers_ok_arm_sequence
  timers_ok_arm_feedback timers_ok_arm_transition timers_ok_arm_flash
  timers_ok_prompt : timers.

Ltac fold_cancel :=
  repeat match goal with
         | |- context [filter (fun t : AppTimer => t_handle t <> ?h) ?l] =>
             change (filter (fun t : AppTimer => t_handle t <> h) l)
               with (cancel_slot (Some h) l)
         end.

(** Case analysis on a test the hypotheses leave open. *)
Ltac split_cmp :=
  match goal with
  | |- context [?a <=? ?b] => destruct (Z.leb_spec a b)
  | |- context [?a <? ?b] => destruct (Z.ltb_spec a b)
  | |- context [?a =? ?b] => destruct (Z.eqb_spec a b)
  end.

Ltac find_lookup :=
  match goal with
  | |- context [?l !! ?n] =>
      let H := fresh "Hlk" in
      let v := fresh "v" in
      destruct (lookup_lt_is_Some_2 l n) as [v H];
      [ rewrite ?length_insert; lia | rewrite H ]
  end.

(** Run a handler to its end, along every path. *)
Ltac split_slot :=
  match goal with
  | |- context [match ?s with Some _ => _ | None => _ end] =>
      is_var s; destruct s
  end.

Ltac explore :=
  run_prog; advance;
  repeat (first [ find_lookup | split_cmp | split_slot ]; advance).

Ltac solve_reads :=
  repeat (apply Forall_app; split);
  [ assumption
  | repeat constructor; unfold read_ok, MAX_SEQUENCE; simpl; lia .. ].

Ltac solve_inv :=
  constructor; fields_goal; unfold MAX_SEQUENCE in *;
  [ rewrite ?length_insert; assumption
  | lia | lia | lia
  | first [ assumption
          | split; intros; first [discriminate | tauto | split; congruence] ]
  | fold_cancel; eauto 14 with timers nocore
  | first [ assumption | intros; first [reflexivity | discriminate | tauto] ]
  | first [ assumption
          | intros; first [split; reflexivity | discriminate | tauto] ]
  | first [ assumption | solve_reads ] ].

Lemma Inv_boot (w : world) : boot = Some w -> Inv w.
Proof.
  intros [= <-]. constructor; cbn; unfold MAX_SEQUENCE.
  - reflexivity.
  - lia.
  - lia.
  - lia.
  - split; intros; discriminate.
  - unfold timers_ok, fresh_below. simpl. repeat split; constructor.
  - reflexivity.
  - split; reflexivity.
  - constructor.
Qed.

Lemma Inv_press (w : world) (b : SequenceButton) :
  Inv w -> step_keeps rnd chalk w (Press b).
Proof.
  intros [Harr Hlen Hin Hsi Hfl Htm Hidle Htri Hrd]. unfold step_keeps.
  open_world w. unfold MAX_SEQUENCE in *.
  destruct showing, trans, over;
    try (destruct Hfl as [Hfl1 Hfl2];
         first [ destruct (Hfl1 eq_refl); discriminate
               | specialize (Hfl2 eq_refl); discriminate ]).
  all: try (destruct (Htri eq_refl) as [-> ->]).
  all: try (rewrite (Hidle eq_refl) in * ).
  all: destruct b, fbt as [fh|]; cbn [btn_code].
  all: explore.
  all: solve_inv.
Qed.

Lemma Inv_fire (w : world) (h : nat) :
  Inv w -> enabled (Fire h) w -> step_keeps rnd chalk w (Fire h).
Proof.
  intros [Harr Hlen Hin Hsi Hfl Htm Hidle Htri Hrd] [t Hfind].
  unfold step_keeps. open_world w. unfold MAX_SEQUENCE in *.
  pose proof (timers_ok_owner _ _ _ _ _ Htm Hfind) as Hown.
  run_prog. rewrite Hfind. destruct t as [th tms tcb].
  cbn [t_cb] in *.
  destruct showing, trans, over;
    try (destruct Hfl as [Hfl1 Hfl2];
         first [ destruct (Hfl1 eq_refl); discriminate
               | specialize (Hfl2 eq_refl); discriminate ]).
  all: try (destruct (Htri eq_refl) as [-> ->]).
  all: try (rewrite (Hidle eq_refl) in * ).
  all: destruct tcb; cbn [cb_cat] in Hown; fields; try discriminate.
  all: try subst.
  all: try (pose proof (timers_ok_prompt_fired _ _ _ _ _ Hfind eq_refl Htm)).
  all: explore.
  all: solve_inv.
Qed.

Lemma step_enabled (w w' : world) (e : event) :
  step rnd chalk w e = Some w' -> enabled e w.
Proof.
  destruct e as [b | h]; simpl; [trivial |].
  unfold exec, fire. destruct (find_timer h (pending w)) as [t |];
    [eauto | discriminate].
Qed.

Lemma Inv_step_keeps (w : world) (e : event) :
  Inv w -> enabled e w -> step_keeps rnd chalk w e.
Proof.
  destruct e as [b | h]; intros HI He;
    [now apply Inv_press | now apply Inv_fire].
Qed.

(** No enabled event faults, and the invariant survives it. *)
Lemma Inv_step_total (w : world) (e : event) :
  Inv w -> enabled e w -> exists w', step rnd chalk w e = Some w' /\ Inv w'.
Proof.
  intros HI He. pose proof (Inv_step_keeps w e HI He) as Hk.
  unfold step_keeps in Hk.
  destruct (step rnd chalk w e) as [w' |]; [eauto | contradiction].
Qed.

Lemma Inv_step (w w' : world) (e : event) :
  Inv w -> step rnd chalk w e = Some w' -> Inv w'.
Proof.
  intros HI Hs.
  destruct (Inv_step_total w e HI (step_enabled w w' e Hs)) as (w2 & Hs2 & HI2).
  congruence.
Qed.

Lemma Inv_reachable (w : world) : reachable rnd chalk w -> Inv w.
Proof.
  induction 1 as [w Hb | w e w' _ IH Hs]; [now apply Inv_boot |].
  now apply (Inv_step w w' e).
Qed.

Lemma reachable_run (w w' : world) (es : list event) :
  reachable rnd chalk w -> run rnd chalk w es = Some w' ->
  reachable rnd chalk w'.
Proof.
  revert w. induction es as [| e es IH]; intros w Hr; simpl.
  - now intros [= <-].
  - destruct (step rnd chalk w e) as [w1 |] eqn:Hs; [| discriminate].
    apply IH. now apply (reach_step rnd chalk w e w1).
Qed.


(** ** Consequences of the invariant *)

Lemma handles_of_elem (t : AppTimer) (l : list AppTimer) :
  t ∈ l -> t_handle t ∈ handles_of (cb_cat (t_cb t)) l.
Proof.
  induction l as [| t0 l IH]; [intros H; now apply elem_of_nil in H |].
  rewrite elem_of_cons. simpl. intros [<- | Hin].
  - replace (cat_eqb (cb_cat (t_cb t)) (cb_cat (t_cb t))) with true
      by (symmetry; now apply cat_eqb_eq).
    apply elem_of_cons. now left.
  - destruct (cat_eqb (cb_cat (t_cb t0)) (cb_cat (t_cb t)));
      [apply elem_of_cons; right |]; auto.
Qed.

Lemma slot_list_elem (x : nat) (slot : option nat) :
  x ∈ slot_list slot -> slot = Some x.
Proof.
  destruct slot as [y |]; simpl; intros Hx.
  - apply list_elem_of_singleton in Hx. now subst.
  - now apply elem_of_nil in Hx.
Qed.

(** Under the invariant, a pending playback timer is the one whose handle
    [s_sequence_timer] holds, and the session is showing. *)
Lemma Inv_sequence_timer (w : world) (t : AppTimer) :
  Inv w -> t ∈ pending w -> t_cb t = CbSequenceTimer ->
  s_sequence_timer (hd w) = Some (t_handle t) /\ s_showing (gm w) = true.
Proof.
  intros HI Hin Hcb. pose proof (handles_of_elem t _ Hin) as Hel.
  rewrite Hcb in Hel. simpl in Hel.
  destruct (inv_timers w HI) as (_ & _ & Hseq & _).
  rewrite Hseq in Hel. apply slot_list_elem in Hel. split; [exact Hel |].
  destruct (s_showing (gm w)) eqn:Hsh; [reflexivity |].
  rewrite (inv_seq_idle w HI Hsh) in Hel. discriminate.
Qed.

Lemma Inv_transition_timer (w : world) (t : AppTimer) :
  Inv w -> t ∈ pending w -> t_cb t = CbRoundTransition ->
  s_transitioning (gm w) = true.
Proof.
  intros HI Hin Hcb. pose proof (handles_of_elem t _ Hin) as Hel.
  rewrite Hcb in Hel. simpl in Hel.
  destruct (inv_timers w HI) as (_ & _ & _ & _ & Htr & _).
  rewrite Htr in Hel. apply slot_list_elem in Hel.
  destruct (s_transitioning (gm w)) eqn:Hsh; [reflexivity |].
  destruct (inv_tr_idle w HI Hsh) as [Hnone _]. congruence.
Qed.

Lemma find_timer_elem (h : nat) (l : list AppTimer) (t : AppTimer) :
  find_timer h l = Some t -> t ∈ l.
Proof.
  unfold find_timer. intros Hf. apply List.find_some in Hf as [Hin _].
  now apply list_elem_of_In.
Qed.

Lemma Inv_cursors_ok (w : world) : Inv w -> cursors_ok w.
Proof.
  intros [Harr Hlen Hin Hsi _ _ _ _ Hrd]. now constructor.
Qed.

Ltac solve_cursors :=
  constructor; fields_goal; unfold MAX_SEQUENCE in *;
  [ rewrite ?length_insert; assumption
  | lia | lia | lia
  | first [ assumption | solve_reads ] ].

(** [handle_input], [begin_round] and the playback callback each return
    without fault and keep the cursors within the length, whatever the
    timers are. *)
Lemma handle_input_cursors (w : world) (b : SequenceButton) :
  cursors_ok w -> op_keeps (handle_input rnd chalk (btn_code b)) w.
Proof.
  intros [Harr Hlen Hin Hsi Hrd]. unfold op_keeps.
  open_world w. unfold MAX_SEQUENCE in *.
  destruct b, showing, trans, over; cbn [btn_code].
  all: explore.
  all: solve_cursors.
Qed.

Lemma begin_round_cursors (w : world) :
  cursors_ok w -> op_keeps begin_round w.
Proof.
  intros [Harr Hlen Hin Hsi Hrd]. unfold op_keeps.
  open_world w. unfold MAX_SEQUENCE in *.
  explore; solve_cursors.
Qed.

Lemma sequence_timer_callback_cursors (w : world) :
  cursors_ok w -> op_keeps sequence_timer_callback w.
Proof.
  intros [Harr Hlen Hin Hsi Hrd]. unfold op_keeps.
  open_world w. unfold MAX_SEQUENCE in *.
  destruct showing; explore; solve_cursors.
Qed.

(** C9: in every reachable state the input cursor is between 0 and the
    sequence length, so is the show cursor (in particular while showing),
    and the length is at most 8; every read of [s_sequence] made so far
    used a non-negative index strictly below the length current at that
    moment.  Every enabled event returns without fault in a state where all
    of this holds again, and so does each of [handle_input], [begin_round]
    and the playback callback [sequence_timer_callback] from any state
    where it holds. *)
Theorem cursors_within_length (w : world) :
  reachable rnd chalk w ->
  0 <= s_input_index (gm w) <= s_seq_len (gm w) /\
  (s_showing (gm w) = true -> 0 <= s_show_index (gm w) <= s_seq_len (gm w)) /\
  0 <= s_seq_len (gm w) <= MAX_SEQUENCE /\
  length (s_sequence (gm w)) = Z.to_nat MAX_SEQUENCE /\
  Forall (fun r => 0 <= fst r < snd r /\ snd r <= MAX_SEQUENCE) (reads w) /\
  (forall e, enabled e w ->
     exists w', step rnd chalk w e = Some w' /\ cursors_ok w') /\
  (forall w0, cursors_ok w0 ->
     (forall b, op_keeps (handle_input rnd chalk (btn_code b)) w0) /\
     op_keeps begin_round w0 /\
     op_keeps sequence_timer_callback w0).
Proof.
  intros Hr. pose proof (Inv_reachable w Hr) as HI.
  destruct (Inv_cursors_ok w HI) as [Harr Hlen Hin Hsi Hrd].
  split; [exact Hin |]. split; [intros _; exact Hsi |].
  split; [exact Hlen |]. split; [exact Harr |]. split; [exact Hrd |].
  split.
  - intros e He. destruct (Inv_step_total w e HI He) as (w' & Hs & HI').
    exists w'. split; [exact Hs | now apply Inv_cursors_ok].
  - intros w0 H0. split; [| split].
    + intros b. now apply handle_input_cursors.
    + now apply begin_round_cursors.
    + now apply sequence_timer_callback_cursors.
Qed.

(** C10: in a reachable state every pending playback timer is the one
    [s_sequence_timer] points to.  Where [begin_round] can be invoked, that
    is when the game is over (SELECT restarts) or when a round-transition
    timer is pending (its expiry calls [begin_round]), [s_sequence_timer]
    is [NULL] and no playback timer is pending at all: the assignment
    [s_sequence_timer = NULL] of [start_show_sequence] drops no live timer,
    and the round that starts has the one playback timer it arms itself. *)
Theorem begin_round_finds_no_playback_timer (w : world) :
  reachable rnd chalk w ->
  (forall t, t ∈ pending w -> t_cb t = CbSequenceTimer ->
             s_sequence_timer (hd w) = Some (t_handle t)) /\
  (s_game_over (gm w) = true ->
   s_sequence_timer (hd w) = None /\
   forall t, t ∈ pending w -> t_cb t <> CbSequenceTimer) /\
  (forall h t, find_timer h (pending w) = Some t ->
               t_cb t = CbRoundTransition ->
   s_sequence_timer (hd w) = None /\
   forall t', t' ∈ pending w -> t_cb t' <> CbSequenceTimer) /\
  (forall e w', step rnd chalk w e = Some w' ->
     forall t1 t2, t1 ∈ pending w' -> t2 ∈ pending w' ->
       t_cb t1 = CbSequenceTimer -> t_cb t2 = CbSequenceTimer ->
       t_handle t1 = t_handle t2).
Proof.
  intros Hr. pose proof (Inv_reachable w Hr) as HI.
  assert (Hidle : s_showing (gm w) = false ->
            s_sequence_timer (hd w) = None /\
            forall t, t ∈ pending w -> t_cb t <> CbSequenceTimer).
  { intros Hsh. split; [now apply (inv_seq_idle w HI) |].
    intros t Hin Hcb.
    destruct (Inv_sequence_timer w t HI Hin Hcb) as [_ Hsh']. congruence. }
  split; [| split; [| split]].
  - intros t Hin Hcb. now destruct (Inv_sequence_timer w t HI Hin Hcb).
  - intros Hover. apply Hidle.
    destruct (s_showing (gm w)) eqn:Hsh; [| reflexivity].
    destruct (proj1 (inv_flags w HI) Hsh). congruence.
  - intros h t Hf Hcb. apply Hidle.
    pose proof (Inv_transition_timer w t HI (find_timer_elem h _ t Hf) Hcb)
      as Htr.
    destruct (s_showing (gm w)) eqn:Hsh; [| reflexivity].
    destruct (proj1 (inv_flags w HI) Hsh). congruence.
  - intros e w' Hs t1 t2 H1 H2 Hc1 Hc2.
    pose proof (Inv_step w w' e HI Hs) as HI'.
    destruct (Inv_sequence_timer w' t1 HI' H1 Hc1) as [E1 _].
    destruct (Inv_sequence_timer w' t2 HI' H2 Hc2) as [E2 _].
    congruence.
Qed.


(** ** Winning *)

(** The last correct press at the maximum length. *)
Lemma win_press (w : world) (b : SequenceButton) :
  s_showing (gm w) = false ->
  s_transitioning (gm w) = false ->
  s_game_over (gm w) = false ->
  0 <= s_input_index (gm w) ->
  s_input_index (gm w) + 1 = s_seq_len (gm w) ->
  s_seq_len (gm w) = MAX_SEQUENCE ->
  s_sequence (gm w) !! Z.to_nat (s_input_index (gm w)) = Some (btn_code b) ->
  exists w', step rnd chalk w (Press b) = Some w' /\
    gm w' = set_game_over true (set_input_index (s_seq_len (gm w)) (gm w)) /\
    rand_calls w' = rand_calls w /\
    out w' =
      out w ++
      [FxGlyph (btn_code b) true; FxVibe VibeShort;
       FxInfo ("Press Select to Restart" ++ newline ++ "Round: " ++
               fmt_d (s_round (gm w)))%string;
       FxMessage "You win!"].
Proof.
  intros Hshow Htrans Hover Hidx Hlast Hlen Hexp.
  open_world w. subst showing trans over len. unfold MAX_SEQUENCE in Hlen.
  destruct b, fbt as [fh |]; cbn [btn_code] in *;
    (eexists; split;
     [ run_prog; advance; unfold glyph_fx, info_text; fields_goal; advance;
       reflexivity
     | fields; rewrite <- ?app_assoc; repeat split ]).
Qed.

(** Once the game is over, only SELECT changes the statics. *)
Lemma game_over_frame (w w' : world) (e : event) :
  Inv w -> s_game_over (gm w) = true -> e <> Press SEQ_BTN_SELECT ->
  step rnd chalk w e = Some w' -> gm w' = gm w.
Proof.
  intros HI Hover Hne Hs.
  assert (Hsh : s_showing (gm w) = false).
  { destruct (s_showing (gm w)) eqn:E; [| reflexivity].
    destruct (proj1 (inv_flags w HI) E). congruence. }
  assert (Htr : s_transitioning (gm w) = false).
  { destruct (s_transitioning (gm w)) eqn:E; [| reflexivity].
    pose proof (proj2 (inv_flags w HI) E). congruence. }
  destruct e as [b | h].
  - assert (Hin : forall p, handle_input rnd chalk p w = Some (tt, w))
      by (intros p; apply handle_input_blocked; auto).
    destruct b; [| contradiction |]; simpl in Hs;
      unfold exec, prv_up_click_handler, prv_down_click_handler in Hs;
      rewrite Hin in Hs; congruence.
  - destruct (step_enabled _ _ _ Hs) as [t Hf].
    pose proof (timers_ok_owner _ _ _ _ _ (inv_timers w HI) Hf) as Hown.
    pose proof (inv_seq_idle w HI Hsh) as Hseq.
    destruct (inv_tr_idle w HI Htr) as [Htrt Hflt].
    revert Hs. open_world w. subst. run_prog. rewrite Hf.
    destruct t as [th tms tcb]. cbn [t_cb cb_cat] in *.
    destruct tcb; cbn [cb_cat] in Hown; try discriminate;
      run_prog; advance; intros [= <-]; reflexivity.
Qed.

Lemma game_over_terminal (es : list event) :
  forall w w', Inv w -> s_game_over (gm w) = true ->
    Forall (fun e => e <> Press SEQ_BTN_SELECT) es ->
    run rnd chalk w es = Some w' -> gm w' = gm w.
Proof.
  induction es as [| e es IH]; intros w w' HI Hover Hall; simpl.
  - now intros [= <-].
  - apply Forall_cons in Hall as [He Hall].
    destruct (step rnd chalk w e) as [w1 |] eqn:Hs; [| discriminate].
    intros Hrun. pose proof (game_over_frame w w1 e HI Hover He Hs) as Hg.
    rewrite <- Hg. apply IH; try assumption.
    + now apply (Inv_step w w1 e).
    + now rewrite Hg.
Qed.

(** C4: when the last step of a round at length 8 is entered correctly,
    the session becomes game-over and "You win!" is presented; no step is
    appended ([rand] is not called, the sequence and its length 8 are as
    before).  From then on no click other than SELECT and no timer expiry
    changes any static; a SELECT press restarts at length 1. *)
Theorem win_at_max_length (w : world) (b : SequenceButton) :
  reachable rnd chalk w ->
  s_showing (gm w) = false ->
  s_transitioning (gm w) = false ->
  s_game_over (gm w) = false ->
  s_seq_len (gm w) = MAX_SEQUENCE ->
  s_input_index (gm w) + 1 = s_seq_len (gm w) ->
  s_sequence (gm w) !! Z.to_nat (s_input_index (gm w)) = Some (btn_code b) ->
  exists w', step rnd chalk w (Press b) = Some w' /\
    s_game_over (gm w') = true /\
    s_seq_len (gm w') = 8 /\
    s_sequence (gm w') = s_sequence (gm w) /\
    rand_calls w' = rand_calls w /\
    s_showing (gm w') = false /\ s_transitioning (gm w') = false /\
    out w' =
      out w ++
      [FxGlyph (btn_code b) true; FxVibe VibeShort;
       FxInfo ("Press Select to Restart" ++ newline ++ "Round: " ++
               fmt_d (s_round (gm w)))%string;
       FxMessage "You win!"] /\
    (forall es w'',
       Forall (fun e => e <> Press SEQ_BTN_SELECT) es ->
       run rnd chalk w' es = Some w'' -> gm w'' = gm w') /\
    exists w3, step rnd chalk w' (Press SEQ_BTN_SELECT) = Some w3 /\
      s_game_over (gm w3) = false /\ s_seq_len (gm w3) = 1 /\
      s_showing (gm w3) = true.
Proof.
  intros Hr Hshow Htrans Hover Hlen Hlast Hexp.
  pose proof (Inv_reachable w Hr) as HI.
  destruct (win_press w b Hshow Htrans Hover) as (w' & Hs & Hgm & Hrc & Hout);
    try assumption.
  { pose proof (inv_input w HI). lia. }
  pose proof (Inv_step w w' _ HI Hs) as HI'.
  exists w'. rewrite Hgm. fields_goal.
  repeat (split; [first [assumption | reflexivity] |]).
  split.
  - intros es w'' Hall Hrun. rewrite <- Hgm.
    apply (game_over_terminal es w' w'' HI'); [| assumption | assumption].
    now rewrite Hgm.
  - destruct (select_restart w') as (w3 & Hs3 & Hrest).
    + now rewrite Hgm.
    + apply (inv_arr w' HI').
    + exists w3. split; [exact Hs3 |]. tauto.
Qed.

(** In a reachable state each of the four timer statics accounts for all
    the pending timers of its category: there is none when the static is
    [NULL] and exactly one, with that handle, otherwise. *)
Lemma tracked_timers_single_pending (w : world) :
  reachable rnd chalk w ->
  handles_of CatSequence (pending w) = slot_list (s_sequence_timer (hd w)) /\
  handles_of CatFeedback (pending w) = slot_list (s_feedback_timer (hd w)) /\
  handles_of CatTransition (pending w) =
    slot_list (s_transition_timer (hd w)) /\
  handles_of CatFlash (pending w) = slot_list (s_flash_timer (hd w)).
Proof.
  intros Hr. destruct (inv_timers w (Inv_reachable w Hr)) as (_ & _ & H).
  exact H.
Qed.


(** ** Bookkeeping of a session *)

Lemma info_after_app (acc : option string) (l1 l2 : list effect) :
  info_after acc (l1 ++ l2) = info_after (info_after acc l1) l2.
Proof.
  revert acc. induction l1 as [| e l1 IH]; intros acc; [reflexivity |].
  destruct e; simpl; apply IH.
Qed.

Lemma info_after_glyph (acc : option string) (i : Z) (on : bool) :
  info_after acc (glyph_fx i on) = acc.
Proof. unfold glyph_fx. now destruct ((i <? 0) || (i >? 2)). Qed.

Lemma info_after_milestone (acc : option string) (n : Z) :
  info_after acc (milestone_fx n) = acc.
Proof.
  unfold milestone_fx. now destruct ((n =? 4) || (n =? 6)), (n =? 8).
Qed.

Lemma rem3_valid (r : N) : valid_step (Z.rem (Z.of_N r) 3).
Proof.
  unfold valid_step. pose proof (Z.rem_bound_pos (Z.of_N r) 3). lia.
Qed.

Lemma steps_append (sq : list Z) (len v : Z) :
  0 <= len -> (Z.to_nat len < length sq)%nat -> valid_step v ->
  Forall valid_step (take (Z.to_nat len) sq) ->
  Forall valid_step (take (Z.to_nat (len + 1)) (<[Z.to_nat len := v]> sq)).
Proof.
  intros Hlen Hlt Hv Hall.
  replace (Z.to_nat (len + 1)) with (S (Z.to_nat len)) by lia.
  rewrite (take_S_r _ _ v) by (now apply list_lookup_insert_eq).
  rewrite take_insert_ge by lia. apply Forall_app. split; [exact Hall |].
  constructor; [exact Hv | constructor].
Qed.

Ltac use_flags :=
  repeat match goal with
         | H : ?a = ?a -> _ |- _ => specialize (H eq_refl)
         | H : true = false -> _ |- _ => clear H
         | H : false = true -> _ |- _ => clear H
         end.

Ltac solve_info :=
  unfold last_info in *; rewrite <- ?app_assoc;
  rewrite ?info_after_app, ?info_after_glyph, ?info_after_milestone;
  cbn [info_after app];
  rewrite ?info_after_app, ?info_after_glyph, ?info_after_milestone;
  cbn [info_after app];
  first [ reflexivity
        | match goal with H : info_after None _ = _ |- _ => rewrite H end;
          reflexivity ].

Ltac solve_steps :=
  first [ assumption
        | apply steps_append;
          [ lia | lia | apply rem3_valid
          | first [ assumption | constructor ] ] ].

Ltac solve_grows :=
  first [ left; split; reflexivity
        | right; split; fields_goal;
          [ lia | first [ reflexivity | apply take_insert_ge; lia ] ] ].

Ltac solve_inv2 :=
  split;
  [ constructor; fields_goal;
    first [ solve [ intros;
                    first [ assumption | reflexivity | lia | discriminate
                          | congruence ] ]
          | solve_steps
          | solve_info ]
  | solve_grows ].

Lemma Inv2_boot (w : world) : boot = Some w -> Inv2 w.
Proof.
  intros [= <-]. constructor; cbn; try reflexivity; try discriminate.
  constructor.
Qed.

Lemma Inv2_press (w : world) (b : SequenceButton) :
  Inv w -> Inv2 w -> step_keeps2 rnd chalk w (Press b).
Proof.
  intros [Harr Hlen Hin Hsi Hfl Htm Hidle Htri Hrd]
    [Jround Jlen Jidx Jst Jms Jtt Jacc Jsteps Jinfo].
  unfold step_keeps2, grows, is_restart.
  open_world w. unfold MAX_SEQUENCE in *. unfold info_text in Jinfo. fields.
  destruct showing, trans, over;
    try (destruct Hfl as [Hfl1 Hfl2];
         first [ destruct (Hfl1 eq_refl); discriminate
               | specialize (Hfl2 eq_refl); discriminate ]).
  all: use_flags.
  all: try (destruct Htri as [-> ->]).
  all: try subst seqt.
  all: destruct b, fbt as [fh|]; cbn [btn_code].
  all: explore.
  all: unfold info_text; fields_goal.
  all: solve_inv2.
Qed.

Lemma Inv2_fire (w : world) (h : nat) :
  Inv w -> Inv2 w -> enabled (Fire h) w -> step_keeps2 rnd chalk w (Fire h).
Proof.
  intros [Harr Hlen Hin Hsi Hfl Htm Hidle Htri Hrd]
    [Jround Jlen Jidx Jst Jms Jtt Jacc Jsteps Jinfo] [t Hfind].
  unfold step_keeps2, grows, is_restart.
  open_world w. unfold MAX_SEQUENCE in *. unfold info_text in Jinfo. fields.
  pose proof (timers_ok_owner _ _ _ _ _ Htm Hfind) as Hown.
  run_prog. rewrite Hfind. destruct t as [th tms tcb].
  cbn [t_cb] in *.
  destruct showing, trans, over;
    try (destruct Hfl as [Hfl1 Hfl2];
         first [ destruct (Hfl1 eq_refl); discriminate
               | specialize (Hfl2 eq_refl); discriminate ]).
  all: use_flags.
  all: try (destruct Htri as [-> ->]).
  all: try subst seqt.
  all: destruct tcb; cbn [cb_cat] in Hown; fields; try discriminate.
  all: try subst.
  all: explore.
  all: unfold info_text; fields_goal.
  all: solve_inv2.
Qed.

Lemma Inv2_step_total (w : world) (e : event) :
  Inv w -> Inv2 w -> enabled e w ->
  exists w', step rnd chalk w e = Some w' /\ Inv2 w' /\
             (is_restart w e \/ grows w w').
Proof.
  intros HI HJ He.
  assert (Hk : step_keeps2 rnd chalk w e)
    by (destruct e; [now apply Inv2_press | now apply Inv2_fire]).
  unfold step_keeps2 in Hk.
  destruct (step rnd chalk w e) as [w' |]; [| contradiction].
  exists w'. tauto.
Qed.

Lemma Inv2_step (w w' : world) (e : event) :
  Inv w -> Inv2 w -> step rnd chalk w e = Some w' ->
  Inv2 w' /\ (is_restart w e \/ grows w w').
Proof.
  intros HI HJ Hs.
  destruct (Inv2_step_total w e HI HJ (step_enabled w w' e Hs))
    as (w2 & Hs2 & H).
  congruence.
Qed.

Lemma Inv2_reachable (w : world) : reachable rnd chalk w -> Inv2 w.
Proof.
  induction 1 as [w Hb | w e w' Hr IH Hs]; [now apply Inv2_boot |].
  now apply (Inv2_step w w' e (Inv_reachable w Hr) IH).
Qed.



(** X1: in every reachable state the round number is the sequence length,
    and unless the game is over the length is between 1 and 8. *)
Theorem round_is_length (w : world) :
  reachable rnd chalk w ->
  s_round (gm w) = s_seq_len (gm w) /\
  (s_game_over (gm w) = false -> 1 <= s_seq_len (gm w) <= MAX_SEQUENCE).
Proof.
  intros Hr. pose proof (Inv2_reachable w Hr) as HJ.
  pose proof (Inv_reachable w Hr) as HI.
  split; [apply (i2_round w HJ) |].
  intros Hover. pose proof (i2_len w HJ Hover). pose proof (inv_len w HI). lia.
Qed.

Lemma button_name_valid (v : Z) :
  valid_step v ->
  (v = 0 /\ button_name v = "Up"%string) \/
  (v = 1 /\ button_name v = "Select"%string) \/
  (v = 2 /\ button_name v = "Down"%string).
Proof.
  unfold valid_step. intros Hv.
  assert (v = 0 \/ v = 1 \/ v = 2) as [-> | [-> | ->]] by lia; auto.
Qed.

(** X2: in every reachable state each step below the sequence length is
    0, 1 or 2: playback names it "Up", "Select" or "Down", never "?", and
    [highlight_glyph] does highlight a glyph for it. *)
Theorem steps_are_buttons (w : world) (i : Z) :
  reachable rnd chalk w ->
  0 <= i < s_seq_len (gm w) ->
  exists v, s_sequence (gm w) !! Z.to_nat i = Some v /\
    ((v = 0 /\ button_name v = "Up"%string) \/
     (v = 1 /\ button_name v = "Select"%string) \/
     (v = 2 /\ button_name v = "Down"%string)) /\
    forall on, exec (highlight_glyph v on) w =
      Some (mkWorld (gm w) (hd w) (pending w) (next_handle w) (rand_calls w)
              (out w ++ [FxGlyph v on]) (reads w)).
Proof.
  intros Hr Hi. pose proof (Inv2_reachable w Hr) as HJ.
  pose proof (Inv_reachable w Hr) as HI.
  pose proof (inv_len w HI) as Hlen. unfold MAX_SEQUENCE in Hlen.
  destruct (lookup_lt_is_Some_2 (s_sequence (gm w)) (Z.to_nat i)) as [v Hv].
  { rewrite (inv_arr w HI). lia. }
  assert (Hvalid : valid_step v).
  { apply (Forall_lookup_1 _ _ (Z.to_nat i) v (i2_steps w HJ)).
    rewrite lookup_take_lt by lia. exact Hv. }
  exists v. split; [exact Hv |]. split; [now apply button_name_valid |].
  intros on. unfold exec. rewrite highlight_glyph_run. unfold glyph_fx.
  unfold valid_step in Hvalid.
  replace (v <? 0) with false by (symmetry; apply Z.ltb_ge; lia).
  rewrite Z.gtb_ltb.
  replace (2 <? v) with false by (symmetry; apply Z.ltb_ge; lia).
  reflexivity.
Qed.

(** X3: while a reachable session is showing, the show duration in use is
    [calc_show_ms] of the current length, between 405 and 700 ms. *)
Theorem show_duration_in_use (w : world) :
  reachable rnd chalk w ->
  s_showing (gm w) = true ->
  s_show_ms_current (gm w) = calc_show_ms (s_seq_len (gm w)) /\
  405 <= s_show_ms_current (gm w) <= 700.
Proof.
  intros Hr Hsh. pose proof (Inv2_reachable w Hr) as HJ.
  pose proof (Inv_reachable w Hr) as HI.
  destruct (proj1 (inv_flags w HI) Hsh) as [_ Hover].
  pose proof (i2_len w HJ Hover) as H1. pose proof (inv_len w HI) as H8.
  unfold MAX_SEQUENCE in H8.
  rewrite (i2_show_ms w HJ Hsh). split; [reflexivity |].
  pose proof (calc_show_ms_antitone 1 (s_seq_len (gm w)) ltac:(lia) ltac:(lia)).
  pose proof (calc_show_ms_antitone (s_seq_len (gm w)) 8 ltac:(lia) ltac:(lia)).
  change (calc_show_ms 1) with 700 in *. change (calc_show_ms 8) with 405 in *.
  lia.
Qed.

(** X4: in every reachable state the text last written to the info layer
    is the text [update_info_layer] would write now: the info layer is
    never stale. *)
Theorem info_layer_is_current (w : world) :
  reachable rnd chalk w ->
  last_info (out w) = Some (info_text (gm w)).
Proof.
  intros Hr. apply (i2_info w (Inv2_reachable w Hr)).
Qed.

Lemma find_timer_of_category (c : category) (h : nat) (l : list AppTimer) :
  NoDup (map t_handle l) -> handles_of c l = [h] ->
  exists t, find_timer h l = Some t /\ cb_cat (t_cb t) = c.
Proof.
  unfold find_timer. induction l as [| t0 l IH]; simpl; [discriminate |].
  intros Hnd Hh. apply NoDup_cons in Hnd as [Hnot Hnd].
  destruct (cat_eqb (cb_cat (t_cb t0)) c) eqn:Hc.
  - injection Hh as Hh0 _. rewrite Hh0, Nat.eqb_refl.
    exists t0. split; [reflexivity | now apply cat_eqb_eq].
  - destruct (Nat.eqb_spec (t_handle t0) h) as [Heq | _]; [| now apply IH].
    exfalso. apply Hnot. rewrite Heq. apply (handles_of_sub c).
    rewrite Hh. now left.
Qed.

(** X5: a reachable session is never stuck.  Either the game is over and
    SELECT starts a round; or it is showing and the playback timer is
    pending and its expiry is handled; or it is in a round transition and
    the transition timer is pending and its expiry starts the next round;
    or it awaits input with the input cursor strictly below the length, so
    that the guard [s_input_index >= s_seq_len] of [handle_input] does not
    fire. *)
Theorem never_stuck (w : world) :
  reachable rnd chalk w ->
  (s_game_over (gm w) = true /\
   exists w', step rnd chalk w (Press SEQ_BTN_SELECT) = Some w' /\
              s_showing (gm w') = true) \/
  (s_showing (gm w) = true /\
   exists h w', s_sequence_timer (hd w) = Some h /\
                step rnd chalk w (Fire h) = Some w') \/
  (s_transitioning (gm w) = true /\
   exists h w', s_transition_timer (hd w) = Some h /\
                step rnd chalk w (Fire h) = Some w' /\
                s_showing (gm w') = true) \/
  (s_showing (gm w) = false /\ s_transitioning (gm w) = false /\
   s_game_over (gm w) = false /\
   0 <= s_input_index (gm w) < s_seq_len (gm w)).
Proof.
  intros Hr. pose proof (Inv2_reachable w Hr) as HJ.
  pose proof (Inv_reachable w Hr) as HI.
  destruct (inv_timers w HI) as (Hnd & _ & Hseq & _ & Htr & _).
  destruct (s_game_over (gm w)) eqn:Hover.
  { left. split; [reflexivity |].
    destruct (select_restart w Hover (inv_arr w HI)) as (w' & Hs & Hrest).
    exists w'. split; [exact Hs | tauto]. }
  right. destruct (s_showing (gm w)) eqn:Hsh.
  { left. split; [reflexivity |].
    destruct (s_sequence_timer (hd w)) as [h |] eqn:Hslot;
      [| now destruct (i2_show_timer w HJ Hsh)].
    destruct (find_timer_of_category _ h _ Hnd Hseq) as (t & Hf & _).
    destruct (Inv_step_total w (Fire h) HI) as (w' & Hs & _);
      [now exists t |].
    now exists h, w'. }
  right. destruct (s_transitioning (gm w)) eqn:Htrans.
  { left. split; [reflexivity |].
    destruct (s_transition_timer (hd w)) as [h |] eqn:Hslot;
      [| now destruct (i2_tr_timer w HJ Htrans)].
    destruct (find_timer_of_category _ h _ Hnd Htr) as (t & Hf & Hc).
    assert (Hcb : t_cb t = CbRoundTransition)
      by (destruct (t_cb t); try discriminate; reflexivity).
    destruct (lookup_lt_is_Some_2 (s_sequence (gm w)) 0%nat) as [s0 Hs0].
    { rewrite (inv_arr w HI). lia. }
    destruct (transition_fire w h t s0 Hf Hcb Hs0 (i2_len w HJ Hover))
      as (w' & Hs & Hgm & _).
    exists h, w'. split; [reflexivity |]. split; [exact Hs |].
    now rewrite Hgm. }
  right. repeat split; try reflexivity.
  - apply (inv_input w HI).
  - now apply (i2_accept w HJ).
Qed.

Lemma keeps_steps_trans (w1 w2 w3 : world) :
  0 <= s_seq_len (gm w1) ->
  keeps_steps w1 w2 -> keeps_steps w2 w3 -> keeps_steps w1 w3.
Proof.
  unfold keeps_steps. intros H0 [Hl12 Ht12] [Hl23 Ht23]. split; [lia |].
  rewrite <- Ht12.
  replace (Z.to_nat (s_seq_len (gm w1)))
    with (Z.to_nat (s_seq_len (gm w1)) `min` Z.to_nat (s_seq_len (gm w2)))%nat
    by lia.
  rewrite <- !take_take. now rewrite Ht23.
Qed.

(** X6: within a session the sequence is append-only.  Along any events
    from a reachable state that include no SELECT press, the length never
    decreases and the steps below the old length stay as they were; a
    single event grows the length by at most one. *)
Theorem sequence_append_only (w w' : world) (es : list event) :
  reachable rnd chalk w ->
  Forall (fun e => e <> Press SEQ_BTN_SELECT) es ->
  run rnd chalk w es = Some w' ->
  keeps_steps w w' /\
  (forall e, es = [e] -> s_seq_len (gm w') <= s_seq_len (gm w) + 1).
Proof.
  intros Hr Hall Hrun.
  assert (Hone : forall w1 w2 e, reachable rnd chalk w1 ->
            e <> Press SEQ_BTN_SELECT -> step rnd chalk w1 e = Some w2 ->
            grows w1 w2).
  { intros w1 w2 e Hr1 Hne Hs.
    destruct (Inv2_step w1 w2 e (Inv_reachable w1 Hr1)
                (Inv2_reachable w1 Hr1) Hs) as [_ [[He _] | Hg]];
      [contradiction | exact Hg]. }
  split.
  - revert w Hr Hrun. induction es as [| e es IH]; intros w Hr; simpl.
    + intros [= <-]. split; [lia | reflexivity].
    + apply Forall_cons in Hall as [Hne Hall].
      destruct (step rnd chalk w e) as [w1 |] eqn:Hs; [| discriminate].
      intros Hrun. destruct (Hone w w1 e Hr Hne Hs) as [[Hl _] Ht].
      apply (keeps_steps_trans w w1 w').
      * apply (inv_len w (Inv_reachable w Hr)).
      * split; assumption.
      * apply IH; [exact Hall | | exact Hrun].
        now apply (reach_step rnd chalk w e w1).
  - intros e ->. apply Forall_cons in Hall as [Hne _]. simpl in Hrun.
    destruct (step rnd chalk w e) as [w1 |] eqn:Hs; [| discriminate].
    injection Hrun as <-. destruct (Hone w w1 e Hr Hne Hs) as [[_ Hl] _].
    exact Hl.
Qed.

(** X7: a reachable game-over state (the start screen, a loss or a win) is
    terminal until SELECT: no UP or DOWN press and no timer expiry changes
    any static. *)
Theorem game_over_is_terminal (w w' : world) (es : list event) :
  reachable rnd chalk w ->
  s_game_over (gm w) = true ->
  Forall (fun e => e <> Press SEQ_BTN_SELECT) es ->
  run rnd chalk w es = Some w' ->
  gm w' = gm w.
Proof.
  intros Hr Hover Hall Hrun.
  now apply (game_over_terminal es w w' (Inv_reachable w Hr)).
Qed.

(** ** The sequence generator *)

(** X8: [add_random_step] below the maximum length calls [rand] once,
    stores [rand() % 3], a value in 0..2, in the first free slot, leaves
    every other slot alone and makes the length one more; at the maximum
    length (or above) it does nothing at all. *)
Theorem add_random_step_appends (w : world) :
  length (s_sequence (gm w)) = 8%nat ->
  0 <= s_seq_len (gm w) ->
  (s_seq_len (gm w) < MAX_SEQUENCE ->
   exists v, valid_step v /\ v = Z.rem (Z.of_N (rnd (rand_calls w))) 3 /\
     exec (add_random_step rnd) w =
       Some (mkWorld
               (set_seq_len (s_seq_len (gm w) + 1)
                  (set_sequence
                     (<[Z.to_nat (s_seq_len (gm w)) := v]> (s_sequence (gm w)))
                     (gm w)))
               (hd w) (pending w) (next_handle w) (S (rand_calls w)) (out w)
               (reads w ++ [(s_seq_len (gm w), s_seq_len (gm w) + 1)])) /\
     <[Z.to_nat (s_seq_len (gm w)) := v]> (s_sequence (gm w))
       !! Z.to_nat (s_seq_len (gm w)) = Some v /\
     forall j, j <> Z.to_nat (s_seq_len (gm w)) ->
       <[Z.to_nat (s_seq_len (gm w)) := v]> (s_sequence (gm w)) !! j =
       s_sequence (gm w) !! j) /\
  (MAX_SEQUENCE <= s_seq_len (gm w) ->
   add_random_step rnd w = Some (tt, w)).
Proof.
  intros Harr Hlen. unfold MAX_SEQUENCE. split; intros Hmax.
  - exists (Z.rem (Z.of_N (rnd (rand_calls w))) 3).
    split; [apply rem3_valid |]. split; [reflexivity |]. split; [| split].
    + open_world w.
      destruct (lookup_lt_is_Some_2 sq (Z.to_nat len)) as [y Hy]; [lia |].
      run_prog. advance. replace (len + 1 - 1) with len by lia.
      advance. reflexivity.
    + apply list_lookup_insert_eq. lia.
    + intros j Hj. now apply list_lookup_insert_ne.
  - open_world w. run_prog. advance. reflexivity.
Qed.

(** ** A correct press inside a round *)

(** X9: a correct press that does not complete the round moves the input
    cursor on by one and changes no other static; it presents "Good" and
    registers a 200 ms timer whose expiry presents "Your turn" again and
    changes neither the statics nor the stored handles. *)
Theorem correct_press_advances (w : world) (b : SequenceButton) :
  s_showing (gm w) = false ->
  s_transitioning (gm w) = false ->
  s_game_over (gm w) = false ->
  0 <= s_input_index (gm w) ->
  s_input_index (gm w) + 1 < s_seq_len (gm w) ->
  s_seq_len (gm w) <= MAX_SEQUENCE ->
  s_sequence (gm w) !! Z.to_nat (s_input_index (gm w)) = Some (btn_code b) ->
  fresh_below (next_handle w) (pending w) ->
  exists w', step rnd chalk w (Press b) = Some w' /\
    gm w' = set_input_index (s_input_index (gm w) + 1) (gm w) /\
    hd w' = set_feedback_timer (Some (next_handle w)) (hd w) /\
    pending w' =
      cancel_slot (s_feedback_timer (hd w)) (pending w) ++
      [mkTimer (next_handle w) 150 (CbClearGlyph (btn_code b));
       mkTimer (S (next_handle w)) 200 CbClearFeedback] /\
    out w' =
      out w ++
      [FxGlyph (btn_code b) true; FxVibe VibeShort; FxMessage "Good"] /\
    exists w'', step rnd chalk w' (Fire (S (next_handle w))) = Some w'' /\
      gm w'' = gm w' /\ hd w'' = hd w' /\
      out w'' = out w' ++ [FxMessage "Your turn"].
Proof.
  intros Hshow Htrans Hover Hidx Hlast Hlen Hexp Hfresh.
  open_world w. subst showing trans over. unfold MAX_SEQUENCE in Hlen.
  assert (Hf : find_timer (S nh)
            (cancel_slot fbt pend ++
             [mkTimer nh 150 (CbClearGlyph (btn_code b));
              mkTimer (S nh) 200 CbClearFeedback]) =
            Some (mkTimer (S nh) 200 CbClearFeedback)).
  { change (cancel_slot fbt pend ++
            [mkTimer nh 150 (CbClearGlyph (btn_code b));
             mkTimer (S nh) 200 CbClearFeedback])
      with (cancel_slot fbt pend ++
            [mkTimer nh 150 (CbClearGlyph (btn_code b))] ++
            [mkTimer (S nh) 200 CbClearFeedback]).
    rewrite app_assoc. apply find_timer_last.
    now apply fresh_below_snoc, fresh_below_cancel. }
  destruct b, fbt as [fh |]; cbn [btn_code] in *;
    (eexists; split;
     [ run_prog; advance; unfold glyph_fx; advance; reflexivity
     | fields; unfold cancel_slot at 1; rewrite <- ?app_assoc;
       repeat (split; [reflexivity |]);
       eexists; split;
       [ run_prog; unfold cancel_slot in Hf; cbn [app] in Hf |- *;
         rewrite Hf; run_prog; reflexivity
       | fields; rewrite <- ?app_assoc; repeat split ] ]).
Qed.

(** ** The glyph highlight of a press *)

Lemma NoDup_handle_inj (l : list AppTimer) (t1 t2 : AppTimer) :
  NoDup (map t_handle l) -> t1 ∈ l -> t2 ∈ l ->
  t_handle t1 = t_handle t2 -> t1 = t2.
Proof.
  induction l as [| t l IH]; simpl; intros Hnd H1 H2 Heq.
  - now apply elem_of_nil in H1.
  - apply NoDup_cons in Hnd as [Hnot Hnd].
    apply elem_of_cons in H1 as [-> | H1], H2 as [-> | H2].
    + reflexivity.
    + exfalso. apply Hnot. rewrite Heq. apply list_elem_of_fmap. now exists t2.
    + exfalso. apply Hnot. rewrite <- Heq. apply list_elem_of_fmap.
      now exists t1.
    + now apply IH.
Qed.

(** The glyph timer expires: [clear_glyph_callback]. *)
Lemma glyph_fire (w : world) (h : nat) (t : AppTimer) (i : Z) :
  find_timer h (pending w) = Some t -> t_cb t = CbClearGlyph i ->
  exists w', step rnd chalk w (Fire h) = Some w' /\
    gm w' = gm w /\ s_feedback_timer (hd w') = None /\
    out w' = out w ++ glyph_fx i false.
Proof.
  intros Hf Hcb. open_world w. eexists. split.
  { run_prog. rewrite Hf, Hcb. run_prog. advance. reflexivity. }
  fields. repeat split.
Qed.

Lemma press_arms (w : world) (b : SequenceButton) :
  Inv w -> Inv2 w ->
  s_showing (gm w) = false -> s_transitioning (gm w) = false ->
  s_game_over (gm w) = false ->
  match step rnd chalk w (Press b) with
  | Some w' =>
      s_feedback_timer (hd w') = Some (next_handle w) /\
      find_timer (next_handle w) (pending w') =
        Some (mkTimer (next_handle w) 150 (CbClearGlyph (btn_code b)))
  | None => False
  end.
Proof.
  intros [Harr Hlen Hin Hsi Hfl Htm Hidle Htri Hrd]
    [Jround Jlen Jidx Jst Jms Jtt Jacc Jsteps Jinfo] Hsh Htr Hov.
  open_world w. subst showing trans over. unfold MAX_SEQUENCE in *.
  use_flags. destruct Htri as [-> ->]. subst seqt.
  destruct Htm as (_ & Hfresh & _).
  pose proof (fresh_below_cancel nh fbt pend Hfresh) as Hfresh'.
  destruct b, fbt as [fh |]; cbn [btn_code].
  all: explore.
  all: split; [reflexivity |].
  all: cbn [cancel_slot] in *.
  all: rewrite ?find_timer_app.
  all: rewrite ?(find_timer_fresh nh nh _ Hfresh') by lia.
  all: unfold find_timer; cbn [List.find t_handle]; rewrite Nat.eqb_refl.
  all: reflexivity.
Qed.

(** X10: in a reachable state that awaits input, any press arms the glyph
    timer: afterwards [s_feedback_timer] holds a 150 ms timer for the glyph
    of the pressed button, and it is the only pending glyph timer (the one
    of an earlier press, if still pending, was cancelled).  When it expires
    the glyph highlight is switched off, the handle is cleared and no
    static changes. *)
Theorem press_arms_glyph_timer (w : world) (b : SequenceButton) :
  reachable rnd chalk w ->
  s_showing (gm w) = false -> s_transitioning (gm w) = false ->
  s_game_over (gm w) = false ->
  exists w', step rnd chalk w (Press b) = Some w' /\
    s_feedback_timer (hd w') = Some (next_handle w) /\
    find_timer (next_handle w) (pending w') =
      Some (mkTimer (next_handle w) 150 (CbClearGlyph (btn_code b))) /\
    (forall t, t ∈ pending w' -> cb_cat (t_cb t) = CatFeedback ->
               t = mkTimer (next_handle w) 150 (CbClearGlyph (btn_code b))) /\
    exists w'', step rnd chalk w' (Fire (next_handle w)) = Some w'' /\
      gm w'' = gm w' /\ s_feedback_timer (hd w'') = None /\
      out w'' = out w' ++ [FxGlyph (btn_code b) false].
Proof.
  intros Hr Hsh Htr Hov.
  pose proof (Inv_reachable w Hr) as HI.
  pose proof (press_arms w b HI (Inv2_reachable w Hr) Hsh Htr Hov) as Harm.
  destruct (step rnd chalk w (Press b)) as [w' |] eqn:Hs; [| contradiction].
  destruct Harm as [Hslot Hfind].
  pose proof (Inv_step w w' _ HI Hs) as HI'.
  destruct (inv_timers w' HI') as (Hnd & _ & _ & Hfb & _).
  exists w'. split; [reflexivity |]. split; [exact Hslot |].
  split; [exact Hfind |]. split.
  - intros t Hin Hcat. apply (NoDup_handle_inj (pending w')); try assumption.
    + now apply (find_timer_elem (next_handle w)).
    + pose proof (handles_of_elem t _ Hin) as Hel.
      rewrite Hcat, Hfb, Hslot in Hel.
      apply list_elem_of_singleton in Hel. exact Hel.
  - destruct (glyph_fire w' (next_handle w) _ (btn_code b) Hfind eq_refl)
      as (w'' & Hs' & Hgm & Hsl & Hout).
    exists w''. repeat (split; [assumption |]).
    rewrite Hout. now destruct b.
Qed.

(** ** The flash animation *)

Lemma start_flash_animation_run (c : Z) (w : world) :
  start_flash_animation chalk c w =
  Some (tt,
        mkWorld
          (set_flash_interval_ms (if chalk then 180 else 140)
             (set_flash_phase 0 (gm w)))
          (set_flash_timer (Some (next_handle w)) (hd w))
          (cancel_slot (s_flash_timer (hd w)) (pending w) ++
           [mkTimer (next_handle w) (if chalk then 180 else 140)
              (CbFlashTick c)])
          (S (next_handle w)) (rand_calls w) (out w ++ [FxFlashDirty])
          (reads w)).
Proof.
  open_world w. run_helpers. run_prog.
  destruct flt; run_prog; reflexivity.
Qed.

Lemma start_flash_animation_flashing (c : Z) (w w0 : world) :
  fresh_below (next_handle w) (pending w) ->
  exec (start_flash_animation chalk c) w = Some w0 ->
  flashing (if chalk then 180 else 140) c 0 w0.
Proof.
  intros Hfresh He. unfold exec in He.
  rewrite start_flash_animation_run in He. injection He as <-.
  constructor; fields_goal.
  - reflexivity.
  - destruct (gm w). reflexivity.
  - exists (next_handle w). split; [reflexivity |].
    apply find_timer_last. now apply fresh_below_cancel.
  - apply fresh_below_snoc. now apply fresh_below_cancel.
Qed.

(** A tick before the last one re-arms the timer. *)
Lemma flash_tick_more (ms c ph : Z) (w : world) :
  flashing ms c ph w -> ph + 1 < c ->
  exists w', flash_tick rnd chalk w = Some w' /\
    flashing ms c (ph + 1) w' /\
    gm w' = set_flash_phase (ph + 1) (gm w) /\
    out w' = out w ++ [FxFlashDirty].
Proof.
  intros [Hph Hms (h & Hslot & Hfind) Hfresh] Hlt. unfold flash_tick.
  rewrite Hslot. open_world w. subst fphase fint. eexists. split.
  { run_prog. rewrite Hfind. cbn [t_cb]. run_prog. advance. reflexivity. }
  fields. split; [| split; reflexivity].
  fold_cancel. constructor; fields_goal.
  - reflexivity.
  - reflexivity.
  - exists nh. split; [reflexivity |].
    apply find_timer_last. now apply (fresh_below_cancel nh (Some h)).
  - apply fresh_below_snoc. now apply (fresh_below_cancel nh (Some h)).
Qed.

(** The last tick clears the handle. *)
Lemma flash_tick_last (ms c ph : Z) (w : world) :
  flashing ms c ph w -> c <= ph + 1 ->
  exists w', flash_tick rnd chalk w = Some w' /\
    s_flash_timer (hd w') = None /\
    handles_of CatFlash (pending w') =
      handles_of CatFlash
        (cancel_slot (s_flash_timer (hd w)) (pending w)) /\
    gm w' = set_flash_phase (ph + 1) (gm w) /\
    out w' = out w ++ [FxFlashDirty].
Proof.
  intros [Hph Hms (h & Hslot & Hfind) Hfresh] Hlt. unfold flash_tick.
  rewrite Hslot. open_world w. subst fphase fint. eexists. split.
  { run_prog. rewrite Hfind. cbn [t_cb]. run_prog. advance. reflexivity. }
  fields. subst flt. repeat split.
Qed.

Lemma flash_from (ms c : Z) :
  forall (n : nat) (w : world) (ph : Z),
    flashing ms c ph w -> Z.max (c - ph) 1 = Z.of_nat (S n) ->
    (forall k, (k <= n)%nat ->
       exists wk, flash_ticks rnd chalk k w = Some wk /\
                  flashing ms c (ph + Z.of_nat k) wk) /\
    exists wl w', flash_ticks rnd chalk n w = Some wl /\
      flash_tick rnd chalk wl = Some w' /\
      flash_ticks rnd chalk (S n) w = Some w' /\
      s_flash_timer (hd w') = None /\
      handles_of CatFlash (pending w') =
        handles_of CatFlash
          (cancel_slot (s_flash_timer (hd wl)) (pending wl)) /\
      gm w' = set_flash_phase (ph + Z.of_nat (S n)) (gm w) /\
      out w' = out w ++ repeat FxFlashDirty (S n).
Proof.
  induction n as [| m IH]; intros w ph Hfl Hn.
  - split.
    + intros k Hk. assert (k = 0%nat) by lia. subst k. exists w.
      split; [reflexivity |]. now rewrite Z.add_0_r.
    + destruct (flash_tick_last ms c ph w Hfl) as (w' & Ht & Hslot & Hh & Hgm & Ho);
        [lia |].
      exists w, w'. simpl. rewrite Ht. repeat split; assumption.
  - destruct (flash_tick_more ms c ph w Hfl) as (w1 & Ht & Hfl1 & Hgm1 & Ho1);
      [lia |].
    destruct (IH w1 (ph + 1) Hfl1) as [Hmid (wl & w' & Hl & Htl & Hts & Hslot & Hh & Hgm & Ho)];
      [lia |].
    split.
    + intros [| k] Hk.
      * exists w. split; [reflexivity |]. now rewrite Z.add_0_r.
      * destruct (Hmid k) as (wk & Hk1 & Hk2); [lia |].
        exists wk. cbn [flash_ticks]. rewrite Ht. split; [exact Hk1 |].
        replace (ph + Z.of_nat (S k)) with (ph + 1 + Z.of_nat k) by lia.
        exact Hk2.
    + exists wl, w'. cbn [flash_ticks]. rewrite Ht.
      split; [exact Hl |]. split; [exact Htl |]. split; [exact Hts |].
      split; [exact Hslot |]. split; [exact Hh |]. split.
      * rewrite Hgm, Hgm1. destruct (gm w). unfold set_flash_phase.
        fields_goal. f_equal. lia.
      * rewrite Ho, Ho1, <- app_assoc. reflexivity.
Qed.

(** X11: [start_flash_animation(cycles)] resets the phase, marks the flash
    layer dirty and arms the flash timer with the interval of the platform
    (180 ms on Chalk, 140 ms elsewhere).  The timer then expires
    [max(cycles, 1)] times in a row: before the last of these expiries
    [s_flash_timer] holds a pending timer with the same interval, each
    expiry adds one to the phase and marks the layer dirty once, and the
    last one leaves [s_flash_timer] NULL.  Apart from the phase no static
    changes. *)
Theorem flash_runs_its_cycles (w : world) (c : Z) :
  fresh_below (next_handle w) (pending w) ->
  let n := Z.to_nat (Z.max c 1) in
  let ms := if chalk then 180 else 140 in
  exists w0, exec (start_flash_animation chalk c) w = Some w0 /\
    gm w0 = set_flash_interval_ms ms (set_flash_phase 0 (gm w)) /\
    out w0 = out w ++ [FxFlashDirty] /\
    (forall k, (k < n)%nat ->
       exists wk h, flash_ticks rnd chalk k w0 = Some wk /\
         s_flash_phase (gm wk) = Z.of_nat k /\
         s_flash_timer (hd wk) = Some h /\
         find_timer h (pending wk) = Some (mkTimer h ms (CbFlashTick c))) /\
    exists w', flash_ticks rnd chalk n w0 = Some w' /\
      s_flash_timer (hd w') = None /\
      gm w' = set_flash_phase (Z.of_nat n) (gm w0) /\
      out w' = out w0 ++ repeat FxFlashDirty n.
Proof.
  intros Hfresh n ms.
  destruct (exec (start_flash_animation chalk c) w) as [w0 |] eqn:He;
    [| unfold exec in He; rewrite start_flash_animation_run in He;
       discriminate].
  pose proof (start_flash_animation_flashing c w w0 Hfresh He) as Hfl.
  unfold exec in He. rewrite start_flash_animation_run in He.
  injection He as He.
  assert (Hgm0 : gm w0 = set_flash_interval_ms ms (set_flash_phase 0 (gm w)))
    by (now subst w0).
  assert (Hout0 : out w0 = out w ++ [FxFlashDirty]) by (now subst w0).
  clear He.
  assert (Hn : exists m, n = S m).
  { exists (Nat.pred n). subst n. lia. }
  destruct Hn as [m Hm].
  destruct (flash_from ms c m w0 0 Hfl) as [Hmid (wl & w' & _ & _ & Hts & Hslot & _ & Hgm & Ho)];
    [subst n; lia |].
  exists w0. split; [reflexivity |]. split; [exact Hgm0 |].
  split; [exact Hout0 |]. split.
  - intros k Hk. destruct (Hmid k) as (wk & Hk1 & [Hph _ (h & Hs & Hf) _]);
      [lia |].
    exists wk, h. split; [exact Hk1 |]. split; [lia |].
    split; [exact Hs | exact Hf].
  - exists w'. rewrite Hm. split; [exact Hts |]. split; [exact Hslot |].
    split; [exact Hgm |]. exact Ho.
Qed.

(** X12: the delay of the round transition against the time the flash
    animation needs.  Called with no transition timer stored (the guards of
    [handle_input] see to that), [start_round_transition] arms the flash
    timer for [cycles] ticks of the platform interval and the transition
    timer with [150 * cycles + 200] ms.  With the 140 ms interval the
    transition delay is longer than [cycles] intervals at every length;
    with the 180 ms interval of Chalk it is longer except at length 8, where
    the seven ticks need 1260 ms and the transition timer is set to
    1250 ms. *)
Theorem transition_delay_and_flash (w : world) :
  fresh_below (next_handle w) (pending w) ->
  s_transition_timer (hd w) = None ->
  let L := s_seq_len (gm w) in
  let c := flash_cycles L in
  let ms := if chalk then 180 else 140 in
  exists w', exec (start_round_transition chalk) w = Some w' /\
    s_flash_timer (hd w') = Some (next_handle w) /\
    find_timer (next_handle w) (pending w') =
      Some (mkTimer (next_handle w) ms (CbFlashTick c)) /\
    s_transition_timer (hd w') = Some (S (next_handle w)) /\
    find_timer (S (next_handle w)) (pending w') =
      Some (mkTimer (S (next_handle w)) (150 * c + 200) CbRoundTransition) /\
    (ms * c < 150 * c + 200 <-> chalk = false \/ L <> 8).
Proof.
  intros Hfresh Hnone L c ms. subst L c ms. unfold exec.
  rewrite start_round_transition_run. eexists. split; [reflexivity |].
  fields_goal. rewrite Hnone. cbn [cancel_slot].
  pose proof (fresh_below_cancel _ (s_flash_timer (hd w)) _ Hfresh) as Hf1.
  pose proof (fresh_below_snoc _ (if chalk then 180 else 140)
                (CbFlashTick (flash_cycles (s_seq_len (gm w)))) _ Hf1) as Hf2.
  split; [now destruct (hd w) |]. split.
  - rewrite find_timer_app.
    now rewrite (find_timer_last _ _ _ _ Hf1).
  - split; [now destruct (hd w) |]. split.
    + now apply find_timer_last.
    + unfold flash_cycles.
      destruct chalk, (Z.eqb_spec (s_seq_len (gm w)) 4),
        (Z.eqb_spec (s_seq_len (gm w)) 6),
        (Z.eqb_spec (s_seq_len (gm w)) 8); cbn [orb];
        intuition (try lia; try discriminate).
Qed.

(** ** Leaving the window *)

Lemma elem_of_cancel_slot (t : AppTimer) (s : option nat) (l : list AppTimer) :
  t ∈ cancel_slot s l <-> t ∈ l /\ s <> Some (t_handle t).
Proof.
  destruct s as [h |]; simpl.
  - rewrite list_elem_of_filter. split.
    + intros [Hne Hin]. split; [exact Hin | congruence].
    + intros [Hin Hne]. split; [congruence | exact Hin].
  - split; [intros Hin; split; [exact Hin | discriminate] | now intros [Hin _]].
Qed.

Lemma find_timer_handle (h : nat) (l : list AppTimer) (t : AppTimer) :
  find_timer h l = Some t -> t_handle t = h.
Proof.
  unfold find_timer. intros Hf. apply List.find_some in Hf as [_ Heq].
  now apply Nat.eqb_eq.
Qed.

(** The timer a handle of category [c] stands for is not a timer of another
    category. *)
Lemma owner_category (c : category) (l : list AppTimer) (t : AppTimer) :
  NoDup (map t_handle l) -> t ∈ l ->
  handles_of c l = [t_handle t] -> cb_cat (t_cb t) = c.
Proof.
  intros Hnd Hin Hh.
  destruct (find_timer_of_category c (t_handle t) l Hnd Hh) as (t' & Hf & Hc).
  rewrite <- Hc. f_equal. f_equal.
  apply (NoDup_handle_inj l); try assumption.
  - now apply (find_timer_elem (t_handle t)).
  - symmetry. now apply (find_timer_handle _ l).
Qed.

Lemma prv_window_unload_run (w : world) :
  prv_window_unload w =
  Some (tt,
        mkWorld (gm w) (mkHandles None None None None)
          (cancel_slot (s_flash_timer (hd w))
             (cancel_slot (s_transition_timer (hd w))
                (cancel_slot (s_feedback_timer (hd w))
                   (cancel_slot (s_sequence_timer (hd w)) (pending w)))))
          (next_handle w) (rand_calls w) (out w) (reads w)).
Proof.
  open_world w. unfold prv_window_unload.
  destruct seqt, fbt, trt, flt; run_prog; reflexivity.
Qed.

(** X13: [prv_window_unload] cancels the timers of the four handles and
    sets the handles to NULL.  In a reachable state these are all the
    pending timers except those with [clear_feedback_callback]: the timers
    left pending after the unload are exactly the prompt timers that were
    pending before, whose handle [handle_input] did not keep.  No other
    static changes. *)
Theorem unload_leaves_prompt_timers (w : world) :
  reachable rnd chalk w ->
  exists w', exec prv_window_unload w = Some w' /\
    hd w' = mkHandles None None None None /\
    gm w' = gm w /\ out w' = out w /\
    forall t, t ∈ pending w' <-> t ∈ pending w /\ t_cb t = CbClearFeedback.
Proof.
  intros Hr. pose proof (Inv_reachable w Hr) as HI.
  destruct (inv_timers w HI) as (Hnd & _ & Hs & Hf & Ht & Hfl).
  unfold exec. rewrite prv_window_unload_run. eexists.
  split; [reflexivity |]. fields_goal. repeat (split; [reflexivity |]).
  intros t. rewrite !elem_of_cancel_slot. split.
  - intros ((((Hin & Hn1) & Hn2) & Hn3) & Hn4). split; [exact Hin |].
    pose proof (handles_of_elem t _ Hin) as Hel.
    destruct (t_cb t) eqn:Hcb; cbn [cb_cat] in Hel; [| | reflexivity | |].
    + rewrite Hs in Hel. apply slot_list_elem in Hel. contradiction.
    + rewrite Hf in Hel. apply slot_list_elem in Hel. contradiction.
    + rewrite Ht in Hel. apply slot_list_elem in Hel. contradiction.
    + rewrite Hfl in Hel. apply slot_list_elem in Hel. contradiction.
  - intros [Hin Hcb].
    assert (Hno : forall c slot, handles_of c (pending w) = slot_list slot ->
                    c <> CatPrompt -> slot <> Some (t_handle t)).
    { intros c slot Hh Hc ->. apply Hc.
      rewrite <- (owner_category c (pending w) t Hnd Hin Hh).
      now rewrite Hcb. }
    repeat split; [exact Hin | ..]; eapply Hno; eauto; discriminate.
Qed.

(** ** The handles and the pending timers *)

(** X14: no handle dangles.  In a reachable state every non-NULL handle
    among [s_sequence_timer], [s_feedback_timer], [s_transition_timer] and
    [s_flash_timer] is the handle of a pending timer whose callback is the
    one of that static, so that [app_timer_cancel] is never called on a
    timer that has expired; conversely every pending timer other than a
    prompt timer is the one its static holds.  The handles of the pending
    timers are pairwise distinct and were all issued before. *)
Theorem handles_never_dangle (w : world) :
  reachable rnd chalk w ->
  (forall c h, slot_of c (hd w) = Some h ->
     exists t, find_timer h (pending w) = Some t /\ cb_cat (t_cb t) = c) /\
  (forall t, t ∈ pending w -> cb_cat (t_cb t) <> CatPrompt ->
     slot_of (cb_cat (t_cb t)) (hd w) = Some (t_handle t)) /\
  NoDup (map t_handle (pending w)) /\
  (forall t, t ∈ pending w -> (t_handle t < next_handle w)%nat).
Proof.
  intros Hr. pose proof (Inv_reachable w Hr) as HI.
  destruct (inv_timers w HI) as (Hnd & Hfresh & Hs & Hf & Ht & Hfl).
  assert (Hall : forall c, c <> CatPrompt ->
            handles_of c (pending w) = slot_list (slot_of c (hd w))).
  { intros [] Hc; cbn [slot_of]; congruence. }
  split; [| split; [| split]].
  - intros c h Hslot. apply find_timer_of_category; [exact Hnd |].
    rewrite Hall, Hslot; [reflexivity |].
    intros ->. discriminate.
  - intros t Hin Hc. apply slot_list_elem. rewrite <- (Hall _ Hc).
    now apply handles_of_elem.
  - exact Hnd.
  - intros t Hin. unfold fresh_below in Hfresh.
    rewrite Forall_forall in Hfresh. now apply Hfresh.
Qed.

(** ** The frames of the layout *)

(** X15: the frames [apply_layout] computes, on a screen of height [bh].
    The info block is hidden exactly on the start screen and is 44 high
    exactly after a game (28 otherwise); these two are what the call hands
    to the display.  The title never starts above the screen and the info
    block never ends below it.  From height 143 on nothing is clamped: the
    command text is centred (up to the rounding of [bh / 2]) and title, text
    and info follow each other with a gap of 6. *)
Theorem layout_frames_stack (w : world) (bw bh : Z) :
  0 <= bh ->
  let F := layout_frames bw bh (s_game_over (gm w)) (s_seq_len (gm w)) in
  (exists w', exec apply_layout w = Some w' /\
     out w' = out w ++ [FxLayout (info_hidden F) (rh (info_frame F))] /\
     gm w' = gm w /\ hd w' = hd w /\ pending w' = pending w) /\
  (info_hidden F = true <->
   s_game_over (gm w) = true /\ s_seq_len (gm w) = 0) /\
  (rh (info_frame F) = 44 <->
   s_game_over (gm w) = true /\ s_seq_len (gm w) <> 0) /\
  (rh (info_frame F) = 44 \/ rh (info_frame F) = 28) /\
  0 <= ry (title_frame F) /\
  bottom (info_frame F) <= bh /\
  (143 <= bh ->
   bh - 1 <= ry (text_frame F) + bottom (text_frame F) <= bh /\
   bottom (title_frame F) + 6 = ry (text_frame F) /\
   bottom (text_frame F) + 6 = ry (info_frame F)).
Proof.
  intros Hbh F. subst F. open_world w. unfold layout_frames, bottom.
  change (Z.quot 44 2) with 22.
  rewrite (Z.quot_div_nonneg bh 2) by lia.
  pose proof (Z.div_mod bh 2 ltac:(lia)) as Hdm.
  pose proof (Z.mod_pos_bound bh 2 ltac:(lia)) as Hmod.
  cbn [rx ry rw rh text_frame title_frame info_frame info_hidden].
  split.
  { eexists. split; [run_prog; reflexivity |]. fields_goal.
    repeat split. }
  destruct over, (Z.eqb_spec len 0); cbn [andb negb].
  all: repeat match goal with
         | |- context [?a <? ?b] => destruct (Z.ltb_spec a b)
         | |- context [?a >? ?b] =>
             rewrite (Z.gtb_ltb a b); destruct (Z.ltb_spec b a)
         end.
  all: repeat split; intros; try lia; try discriminate; try tauto;
    try (now left); try (now right).
  all: intuition (try lia; try discriminate).
Qed.


(** ** The end of the round transition *)

(** During the transition no click and no timer other than the completion
    timer touches the sequence, the length, the round number, the flags or
    the stored completion timer. *)
Lemma celebrating_step (arr : list Z) (L : Z) (h : nat) (w w' : world)
    (e : event) :
  Inv w -> celebrating arr L h w -> e <> Fire h ->
  step rnd chalk w e = Some w' -> celebrating arr L h w'.
Proof.
  intros HI [Hseq Hlen Hround Htr Hsh Hov Hslot] Hne Hs.
  destruct e as [b | h'].
  - revert Hs. open_world w. subst.
    destruct b; run_prog; intros [= <-]; constructor; reflexivity.
  - destruct (step_enabled _ _ _ Hs) as [t Hf].
    pose proof (timers_ok_owner _ _ _ _ _ (inv_timers w HI) Hf) as Hown.
    revert Hs. open_world w. subst. run_prog. rewrite Hf.
    destruct t as [th tms tcb]. cbn [t_cb cb_cat] in *.
    destruct tcb; cbn [cb_cat] in Hown;
      try (exfalso; apply Hne; congruence);
      explore; intros [= <-]; constructor; reflexivity.
Qed.

Lemma celebrating_run (arr : list Z) (L : Z) (h : nat) (es : list event) :
  forall w w2, Inv w -> celebrating arr L h w ->
    Forall (fun e => e <> Fire h) es ->
    run rnd chalk w es = Some w2 -> Inv w2 /\ celebrating arr L h w2.
Proof.
  induction es as [| e es IH]; intros w w2 HI Hc Hall; simpl.
  - intros [= <-]. now split.
  - apply Forall_cons in Hall as [He Hall].
    destruct (step rnd chalk w e) as [w1 |] eqn:Hs; [| discriminate].
    apply IH; [now apply (Inv_step w w1 e) | | exact Hall].
    now apply (celebrating_step arr L h w w1 e).
Qed.

(** The flash timer is not the completion timer. *)
Lemma celebrating_flash_handle (arr : list Z) (L : Z) (h fh : nat)
    (w : world) :
  Inv w -> celebrating arr L h w -> s_flash_timer (hd w) = Some fh ->
  Fire fh <> Fire h.
Proof.
  intros HI Hc Hfl [= ->].
  destruct (inv_timers w HI) as (Hnd & _ & _ & _ & Htr & Hflash).
  rewrite (ce_timer _ _ _ _ Hc) in Htr. rewrite Hfl in Hflash.
  apply (handles_of_disjoint CatFlash CatTransition h (pending w) Hnd);
    [discriminate | rewrite Hflash | rewrite Htr]; now left.
Qed.

Lemma celebrating_flash_ticks (arr : list Z) (L : Z) (h : nat) (n : nat) :
  forall w wk, Inv w -> celebrating arr L h w ->
    flash_ticks rnd chalk n w = Some wk -> Inv wk /\ celebrating arr L h wk.
Proof.
  induction n as [| n IH]; intros w wk HI Hc; simpl.
  - intros [= <-]. now split.
  - unfold flash_tick.
    destruct (s_flash_timer (hd w)) as [fh |] eqn:Hfl; [| discriminate].
    destruct (step rnd chalk w (Fire fh)) as [w1 |] eqn:Hs; [| discriminate].
    apply IH; [now apply (Inv_step w w1 (Fire fh)) |].
    apply (celebrating_step arr L h w w1 (Fire fh)); try assumption.
    now apply (celebrating_flash_handle arr L h fh w).
Qed.

(** The completion timer expires, whatever the flash animation has done so
    far: [round_transition_callback]. *)
Lemma completion_fires (arr : list Z) (L : Z) (h : nat) (w : world) :
  Inv w -> celebrating arr L h w -> 1 <= L ->
  exists w', step rnd chalk w (Fire h) = Some w' /\
    s_transition_timer (hd w') = None /\
    s_flash_timer (hd w') = None /\
    (forall t c, t ∈ pending w' -> t_cb t <> CbFlashTick c) /\
    gm w' = mkGame arr L 0 true 0 1 false L false (calc_show_ms L) 0
              (s_flash_interval_ms (gm w)).
Proof.
  intros HI [Hseq Hlen Hround Htr Hsh Hov Hslot] HL.
  destruct (inv_timers w HI) as (Hnd & _ & _ & _ & Htrs & _).
  rewrite Hslot in Htrs.
  destruct (find_timer_of_category _ h _ Hnd Htrs) as (t & Hf & Hc).
  assert (Hcb : t_cb t = CbRoundTransition)
    by (destruct (t_cb t); try discriminate; reflexivity).
  destruct (lookup_lt_is_Some_2 (s_sequence (gm w)) 0%nat) as [s0 Hs0].
  { rewrite (inv_arr w HI). lia. }
  destruct (transition_fire w h t s0 Hf Hcb Hs0)
    as (w' & Hs & Hgm & Hhd & _); [lia |].
  exists w'. split; [exact Hs |]. rewrite Hhd, Hgm, Hseq, Hlen. fields_goal.
  split; [reflexivity |]. split; [reflexivity |]. split; [| reflexivity].
  intros t' c Hin Hcb'.
  pose proof (Inv_step w w' _ HI Hs) as HI'.
  destruct (inv_timers w' HI') as (_ & _ & _ & _ & _ & Hfl').
  rewrite Hhd in Hfl'. cbn in Hfl'.
  pose proof (handles_of_elem t' _ Hin) as Hel.
  rewrite Hcb' in Hel. cbn [cb_cat] in Hel. rewrite Hfl' in Hel.
  now apply elem_of_nil in Hel.
Qed.

(** C3: the last correct press of a round of length [L < 8] appends exactly
    one step ([rand() % 3] in slot [L], one call of [rand]), makes the
    length and the round number [L + 1], sets transitioning, sends the
    double pulse followed by the milestone pulse (short for 4 and 6, long
    for 8, none otherwise), starts a flash of 5, 7 or 3 cycles accordingly,
    and registers one round-transition timer of [150 * cycles + 200] ms.
    When that timer fires the flash timer is cancelled and its handle
    cleared, the flash phase is set to 0, and [begin_round] has run:
    transitioning is false and the new round of length [L + 1] is showing.
    This holds when the timer fires at once, and in a session also when it
    fires after any clicks and any expiries of other timers; until it
    fires the transition stays as the press left it.  In particular, when
    the flash has run its [cycles] ticks first, the phase stands at
    [cycles] and the flash handle is NULL, and the expiry of the completion
    timer puts the phase back to 0. *)
Theorem round_complete_grows_and_celebrates (w : world) (b : SequenceButton) :
  s_showing (gm w) = false ->
  s_transitioning (gm w) = false ->
  s_game_over (gm w) = false ->
  length (s_sequence (gm w)) = 8%nat ->
  fresh_below (next_handle w) (pending w) ->
  0 <= s_input_index (gm w) ->
  s_input_index (gm w) + 1 = s_seq_len (gm w) ->
  s_seq_len (gm w) < MAX_SEQUENCE ->
  s_sequence (gm w) !! Z.to_nat (s_input_index (gm w)) = Some (btn_code b) ->
  let L := s_seq_len (gm w) in
  let cycles := flash_cycles (L + 1) in
  let nh := next_handle w in
  ((L + 1 = 4 \/ L + 1 = 6 ->
    milestone_fx (L + 1) = [FxVibe VibeShort] /\ cycles = 5) /\
   (L + 1 = 8 -> milestone_fx (L + 1) = [FxVibe VibeLong] /\ cycles = 7) /\
   (L + 1 <> 4 -> L + 1 <> 6 -> L + 1 <> 8 ->
    milestone_fx (L + 1) = [] /\ cycles = 3)) /\
  exists w', step rnd chalk w (Press b) = Some w' /\
    s_sequence (gm w') =
      <[Z.to_nat L := Z.rem (Z.of_N (rnd (rand_calls w))) 3]>
        (s_sequence (gm w)) /\
    rand_calls w' = S (rand_calls w) /\
    s_seq_len (gm w') = L + 1 /\ s_round (gm w') = L + 1 /\
    s_transitioning (gm w') = true /\ s_showing (gm w') = false /\
    s_game_over (gm w') = false /\ s_flash_phase (gm w') = 0 /\
    out w' =
      out w ++
      [FxGlyph (btn_code b) true; FxVibe VibeShort;
       FxInfo ("Round: " ++ fmt_d (L + 1))%string; FxVibe VibeDouble] ++
      milestone_fx (L + 1) ++
      [FxMessage ("Length " ++ fmt_d (L + 1))%string; FxFlashDirty] /\
    pending w' =
      cancel_slot (s_transition_timer (hd w))
        (cancel_slot (s_flash_timer (hd w))
           (cancel_slot (s_feedback_timer (hd w)) (pending w) ++
            [mkTimer nh 150 (CbClearGlyph (btn_code b))]) ++
         [mkTimer (S nh) (if chalk then 180 else 140) (CbFlashTick cycles)]) ++
      [mkTimer (S (S nh)) (150 * cycles + 200) CbRoundTransition] /\
    s_flash_timer (hd w') = Some (S nh) /\
    s_transition_timer (hd w') = Some (S (S nh)) /\
    (exists w'', step rnd chalk w' (Fire (S (S nh))) = Some w'' /\
       s_transition_timer (hd w'') = None /\
       s_flash_timer (hd w'') = None /\
       (S nh ∉ map t_handle (pending w'')) /\
       s_flash_phase (gm w'') = 0 /\
       s_transitioning (gm w'') = false /\
       s_showing (gm w'') = true /\ s_game_over (gm w'') = false /\
       s_input_index (gm w'') = 0 /\ s_show_index (gm w'') = 0 /\
       s_seq_len (gm w'') = L + 1 /\ s_round (gm w'') = L + 1 /\
       s_show_ms_current (gm w'') = calc_show_ms (L + 1)) /\
    (reachable rnd chalk w ->
     (forall es w2,
        Forall (fun e => e <> Fire (S (S nh))) es ->
        run rnd chalk w' es = Some w2 ->
        s_transitioning (gm w2) = true /\
        s_seq_len (gm w2) = L + 1 /\ s_round (gm w2) = L + 1 /\
        s_sequence (gm w2) = s_sequence (gm w') /\
        s_transition_timer (hd w2) = Some (S (S nh)) /\
        exists w'', step rnd chalk w2 (Fire (S (S nh))) = Some w'' /\
          s_transition_timer (hd w'') = None /\
          s_flash_timer (hd w'') = None /\
          (forall t c, t ∈ pending w'' -> t_cb t <> CbFlashTick c) /\
          s_flash_phase (gm w'') = 0 /\
          s_transitioning (gm w'') = false /\
          s_showing (gm w'') = true /\ s_game_over (gm w'') = false /\
          s_input_index (gm w'') = 0 /\ s_show_index (gm w'') = 0 /\
          s_sequence (gm w'') = s_sequence (gm w') /\
          s_seq_len (gm w'') = L + 1 /\ s_round (gm w'') = L + 1 /\
          s_show_ms_current (gm w'') = calc_show_ms (L + 1)) /\
     exists wk, flash_ticks rnd chalk (Z.to_nat cycles) w' = Some wk /\
       s_flash_phase (gm wk) = cycles /\ 3 <= cycles /\
       s_flash_timer (hd wk) = None /\
       s_transition_timer (hd wk) = Some (S (S nh)) /\
       exists w'', step rnd chalk wk (Fire (S (S nh))) = Some w'' /\
         s_flash_phase (gm w'') = 0 /\
         s_flash_timer (hd w'') = None /\
         s_transition_timer (hd w'') = None /\
         s_transitioning (gm w'') = false /\
         s_showing (gm w'') = true /\
         s_seq_len (gm w'') = L + 1 /\ s_round (gm w'') = L + 1).
Proof.
  intros Hshow Htrans Hover Harr Hfresh Hidx Hlast Hlen Hexp L cycles nh.
  split; [apply milestone_rule |].
  destruct (round_complete_press w b Hshow Htrans Hover Harr Hidx Hlast Hlen
              Hexp)
    as (w' & Hstep & Hgm & Hhd & Hpend & Hnh & Hrc & Hout & _).
  fold L cycles nh in Hgm, Hhd, Hpend, Hnh, Hout.
  exists w'. rewrite Hgm, Hhd. fields_goal.
  repeat (split; [first [assumption | reflexivity] |]).
  set (tr := mkTimer (S (S nh)) (150 * cycles + 200) CbRoundTransition).
  assert (Hfind : find_timer (S (S nh)) (pending w') = Some tr).
  { rewrite Hpend. apply find_timer_last.
    apply fresh_below_cancel, fresh_below_snoc, fresh_below_cancel,
      fresh_below_snoc, fresh_below_cancel, Hfresh. }
  destruct (lookup_lt_is_Some_2 (s_sequence (gm w')) 0%nat) as [s0 Hs0].
  { rewrite Hgm. fields_goal. rewrite length_insert. lia. }
  split.
  { destruct (transition_fire w' (S (S nh)) tr s0 Hfind eq_refl Hs0)
      as (w'' & Hstep' & Hgm' & Hhd' & Hpend' & _).
    { rewrite Hgm. fields_goal. unfold L. lia. }
    exists w''. rewrite Hhd in Hhd', Hpend'. rewrite Hgm in Hgm'. fields.
    rewrite Hgm', Hhd'. fields_goal.
    repeat (split; [first [assumption | reflexivity] |]).
    split; [| repeat split].
    rewrite Hpend', Hnh. rewrite fmap_app. intros Hin.
    apply elem_of_app in Hin as [Hin | Hin].
    - now apply cancel_slot_gone in Hin.
    - apply list_elem_of_singleton in Hin. simpl in Hin. lia. }
  intros Hr. pose proof (Inv_reachable w Hr) as HI.
  pose proof (Inv_step w w' _ HI Hstep) as HI'.
  assert (Hseq' : s_sequence (gm w') =
                  <[Z.to_nat L := Z.rem (Z.of_N (rnd (rand_calls w))) 3]>
                    (s_sequence (gm w))) by (rewrite Hgm; reflexivity).
  rewrite <- Hseq'.
  assert (HL : 1 <= L + 1) by (pose proof (inv_len w HI); unfold L; lia).
  assert (Hcel : celebrating (s_sequence (gm w')) (L + 1) (S (S nh)) w').
  { constructor; rewrite ?Hgm, ?Hhd; reflexivity. }
  assert (Hfire : forall w2, Inv w2 ->
            celebrating (s_sequence (gm w')) (L + 1) (S (S nh)) w2 ->
            exists w'', step rnd chalk w2 (Fire (S (S nh))) = Some w'' /\
              s_transition_timer (hd w'') = None /\
              s_flash_timer (hd w'') = None /\
              (forall t c, t ∈ pending w'' -> t_cb t <> CbFlashTick c) /\
              s_flash_phase (gm w'') = 0 /\
              s_transitioning (gm w'') = false /\
              s_showing (gm w'') = true /\ s_game_over (gm w'') = false /\
              s_input_index (gm w'') = 0 /\ s_show_index (gm w'') = 0 /\
              s_sequence (gm w'') = s_sequence (gm w') /\
              s_seq_len (gm w'') = L + 1 /\ s_round (gm w'') = L + 1 /\
              s_show_ms_current (gm w'') = calc_show_ms (L + 1)).
  { intros w2 HI2 Hc2.
    destruct (completion_fires _ _ _ w2 HI2 Hc2 HL)
      as (w'' & Hs & Htr & Hfl & Hnone & Hgm'').
    exists w''. split; [exact Hs |]. split; [exact Htr |].
    split; [exact Hfl |]. split; [exact Hnone |].
    rewrite Hgm''. fields_goal. repeat split. }
  split.
  - intros es w2 Hall Hrun.
    destruct (celebrating_run _ _ _ es w' w2 HI' Hcel Hall Hrun)
      as [HI2 Hc2].
    split; [apply (ce_trans _ _ _ _ Hc2) |].
    split; [apply (ce_len _ _ _ _ Hc2) |].
    split; [apply (ce_round _ _ _ _ Hc2) |].
    split; [apply (ce_seq _ _ _ _ Hc2) |].
    split; [apply (ce_timer _ _ _ _ Hc2) |].
    now apply Hfire.
  - destruct (inv_tr_idle w HI Htrans) as [Htrt Hflt].
    rewrite Htrt, Hflt in Hpend. cbn [cancel_slot] in Hpend.
    assert (Hf1 : fresh_below (S nh)
              (cancel_slot (s_feedback_timer (hd w)) (pending w) ++
               [mkTimer nh 150 (CbClearGlyph (btn_code b))])).
    { apply fresh_below_snoc, fresh_below_cancel, Hfresh. }
    assert (Hflashing : flashing (if chalk then 180 else 140) cycles 0 w').
    { constructor.
      - rewrite Hgm. reflexivity.
      - rewrite Hgm. reflexivity.
      - exists (S nh). split; [rewrite Hhd; reflexivity |].
        rewrite Hpend, find_timer_app.
        now rewrite (find_timer_last _ _ _ _ Hf1).
      - rewrite Hnh, Hpend. now apply fresh_below_snoc, fresh_below_snoc. }
    assert (Hcyc : 3 <= cycles <= 7).
    { unfold cycles, flash_cycles.
      destruct ((L + 1 =? 4) || (L + 1 =? 6)), (L + 1 =? 8); lia. }
    destruct (flash_from (if chalk then 180 else 140) cycles
                (Nat.pred (Z.to_nat cycles)) w' 0 Hflashing)
      as [_ (wl & wk & _ & _ & Hticks & Hslot & _ & Hgmk & _)]; [lia |].
    replace (S (Nat.pred (Z.to_nat cycles))) with (Z.to_nat cycles)
      in Hticks, Hgmk by lia.
    destruct (celebrating_flash_ticks _ _ _ _ w' wk HI' Hcel Hticks)
      as [HIk Hck].
    exists wk. split; [exact Hticks |]. split.
    { rewrite Hgmk. destruct (gm w'). cbn. lia. }
    split; [lia |]. split; [exact Hslot |].
    split; [apply (ce_timer _ _ _ _ Hck) |].
    destruct (Hfire wk HIk Hck) as (w'' & Hs & H1 & H2 & _ & H3 & H4 & H5 & _
                                     & _ & _ & _ & H6 & H7 & _).
    exists w''. repeat (split; [assumption |]). assumption.
Qed.

End Proofs.

(** * The prompt timer of [handle_input] *)

Lemma play_reachable (es : list event) (w : world) :
  play es = Some w -> reachable all_up false w.
Proof.
  unfold play. destruct boot as [w0 |] eqn:Hb; [| discriminate].
  apply reachable_run. now apply reach_boot.
Qed.

(** C8 (the code at a failing input): round 3 awaits input and no timer is
    pending.  UP is pressed, the glyph timer expires after 150 ms, and UP is
    pressed again before the 200 ms of the first prompt timer are over: two
    timers with the callback [clear_feedback_callback] are now pending at
    once, because line 359 registers the second without cancelling the first
    (it keeps no handle to cancel).  The first expires; a wrong press ends
    the game; when the second expires it replaces "Game Over" by "Your turn"
    although the game is over. *)
Theorem prompt_timers_pile_up :
  exists w w2 w4,
    play three_rounds = Some w /\ pending w = [] /\
    s_seq_len (gm w) = 3 /\ s_input_index (gm w) = 0 /\
    run all_up false w [Press SEQ_BTN_UP; Fire 24%nat; Press SEQ_BTN_UP] =
      Some w2 /\
    reachable all_up false w2 /\
    pending w2 =
      [mkTimer 25 200 CbClearFeedback; mkTimer 26 150 (CbClearGlyph 0);
       mkTimer 27 200 CbClearFeedback] /\
    handles_of CatPrompt (pending w2) = [25; 27]%nat /\
    run all_up false w2 [Fire 25%nat; Press SEQ_BTN_DOWN; Fire 27%nat] =
      Some w4 /\
    s_game_over (gm w4) = true /\
    exists o,
      out w4 =
        o ++ [FxMessage "Game Over"; FxLayout false 44; FxMessage "Your turn"].
Proof.
  eexists. eexists. eexists.
  split; [vm_compute; reflexivity |].
  split; [reflexivity |]. split; [reflexivity |]. split; [reflexivity |].
  split; [vm_compute; reflexivity |].
  split.
  { apply (play_reachable
             (three_rounds ++
              [Press SEQ_BTN_UP; Fire 24%nat; Press SEQ_BTN_UP])).
    vm_compute. reflexivity. }
  split; [reflexivity |]. split; [reflexivity |].
  split; [vm_compute; reflexivity |].
  split; [reflexivity |].
  eexists. cbn [out].
  match goal with
  | |- ?l = _ => rewrite <- (take_drop (length l - 3) l) at 1
  end.
  f_equal.
Qed.

(** * The theorems at concrete inputs *)

Lemma playback_presents_sequence_witness :
  exists w1, exec begin_round (world_after first_turn) = Some w1 /\
             s_showing (gm w1) = true /\
             exists w2, ticks all_up false 2 w1 = Some w2 /\
                        s_showing (gm w2) = false.
Proof.
  destruct (playback_presents_sequence all_up false (world_after first_turn) 0)
    as (w1 & Hexec & Hsh & _ & _ & _ & _ & w2 & Hticks & Hsh2 & _).
  - reflexivity.
  - vm_compute. split; discriminate.
  - vm_compute. constructor.
  - reflexivity.
  - exists w1. split; [exact Hexec |]. split; [exact Hsh |].
    exists w2. split; [exact Hticks | exact Hsh2].
Defined.

Lemma wrong_press_ends_game_witness :
  exists w', step all_up false (world_after first_turn) (Press SEQ_BTN_DOWN) =
             Some w' /\
             s_game_over (gm w') = true /\ s_showing (gm w') = false /\
             s_sequence_timer (hd w') = None.
Proof.
  destruct (wrong_press_ends_game all_up false (world_after first_turn)
              SEQ_BTN_DOWN 0)
    as (w' & Hstep & Hgm & Hsh & Hslot & _).
  - reflexivity.
  - reflexivity.
  - reflexivity.
  - vm_compute. split; [discriminate | reflexivity].
  - vm_compute. discriminate.
  - reflexivity.
  - vm_compute. discriminate.
  - exists w'. rewrite Hgm. repeat split; assumption.
Defined.


Lemma round_complete_grows_and_celebrates_witness :
  exists w' w2 w'',
    step all_up false (world_after first_turn) (Press SEQ_BTN_UP) = Some w' /\
    s_seq_len (gm w') = 2 /\ s_round (gm w') = 2 /\
    s_transitioning (gm w') = true /\
    run all_up false w' [Fire 3; Fire 2; Fire 5; Fire 6]%nat = Some w2 /\
    s_flash_phase (gm w2) = 3 /\ s_flash_timer (hd w2) = None /\
    step all_up false w2 (Fire 4%nat) = Some w'' /\
    s_flash_phase (gm w'') = 0 /\ s_showing (gm w'') = true.
Proof.
  destruct (round_complete_grows_and_celebrates all_up false
              (world_after first_turn) SEQ_BTN_UP)
    as (_ & w' & Hstep & _ & _ & Hlen & Hround & Htr & _ & _ & _ & _ & _ & _
        & _ & _ & Hgen).
  - reflexivity.
  - reflexivity.
  - reflexivity.
  - reflexivity.
  - vm_compute. constructor.
  - vm_compute. discriminate.
  - reflexivity.
  - reflexivity.
  - reflexivity.
  - destruct Hgen as [Hgen _].
    { apply (play_reachable first_turn). vm_compute. reflexivity. }
    assert (Hc : step all_up false (world_after first_turn)
                   (Press SEQ_BTN_UP) =
                 Some (world_after (first_turn ++ [Press SEQ_BTN_UP])))
      by (vm_compute; reflexivity).
    assert (Hw : Some w' =
                 Some (world_after (first_turn ++ [Press SEQ_BTN_UP])))
      by (rewrite <- Hstep; exact Hc).
    apply (inj Some) in Hw. subst w'.
    assert (Hnh : next_handle (world_after first_turn) = 2%nat)
      by (vm_compute; reflexivity).
    rewrite Hnh in Hgen.
    destruct (Hgen [Fire 3; Fire 2; Fire 5; Fire 6]%nat
                (world_after
                   (first_turn ++
                    [Press SEQ_BTN_UP; Fire 3; Fire 2; Fire 5; Fire 6]%nat)))
      as (_ & _ & _ & _ & _ & w'' & Hfire & _ & _ & _ & Hph & _ & Hsh & _).
    + repeat (constructor; [discriminate |]). constructor.
    + vm_compute. reflexivity.
    + exists (world_after (first_turn ++ [Press SEQ_BTN_UP])),
        (world_after
           (first_turn ++
            [Press SEQ_BTN_UP; Fire 3; Fire 2; Fire 5; Fire 6]%nat)), w''.
      split; [exact Hc |]. split; [exact Hlen |]. split; [exact Hround |].
      split; [exact Htr |]. split; [vm_compute; reflexivity |].
      split; [vm_compute; reflexivity |]. split; [vm_compute; reflexivity |].
      split; [exact Hfire |]. split; [exact Hph | exact Hsh].
Defined.

Lemma win_at_max_length_witness :
  exists w', step all_up false (world_after perfect_play) (Press SEQ_BTN_UP) =
             Some w' /\
             s_game_over (gm w') = true /\ s_seq_len (gm w') = 8.
Proof.
  destruct (win_at_max_length all_up false (world_after perfect_play)
              SEQ_BTN_UP)
    as (w' & Hstep & Hover & Hlen & _).
  - apply (play_reachable perfect_play). vm_compute. reflexivity.
  - reflexivity.
  - reflexivity.
  - reflexivity.
  - reflexivity.
  - reflexivity.
  - reflexivity.
  - exists w'. repeat split; assumption.
Defined.

Lemma select_starts_first_round_witness :
  exists w', step all_up false (world_after []) (Press SEQ_BTN_SELECT) =
             Some w' /\
             s_seq_len (gm w') = 1 /\ s_round (gm w') = 1 /\
             s_showing (gm w') = true.
Proof.
  destruct (proj2 (select_starts_first_round all_up false) (world_after []))
    as (w' & Hstep & _ & _ & Hlen & Hround & _ & _ & _ & Hsh & _).
  - reflexivity.
  - reflexivity.
  - exists w'. repeat split; assumption.
Defined.

Lemma press_ignored_while_blocked_witness :
  step all_up false (world_after [Press SEQ_BTN_SELECT]) (Press SEQ_BTN_UP) =
    Some (world_after [Press SEQ_BTN_SELECT]) /\
  step all_up false (world_after [Press SEQ_BTN_SELECT]) (Press SEQ_BTN_DOWN) =
    Some (world_after [Press SEQ_BTN_SELECT]).
Proof.
  destruct (press_ignored_while_blocked all_up false
              (world_after [Press SEQ_BTN_SELECT]))
    as (Hup & Hdown & _).
  - left. reflexivity.
  - split; [exact Hup | exact Hdown].
Defined.

Lemma cursors_within_length_witness :
  0 <= s_input_index (gm (world_after three_rounds)) <=
    s_seq_len (gm (world_after three_rounds)) /\
  Forall (fun r => 0 <= fst r < snd r /\ snd r <= MAX_SEQUENCE)
    (reads (world_after three_rounds)).
Proof.
  destruct (cursors_within_length all_up false (world_after three_rounds))
    as (Hin & _ & _ & _ & Hreads & _).
  - apply (play_reachable three_rounds). vm_compute. reflexivity.
  - split; [exact Hin | exact Hreads].
Defined.

Lemma begin_round_finds_no_playback_timer_witness :
  s_sequence_timer
    (hd (world_after (first_turn ++ [Press SEQ_BTN_UP]))) = None.
Proof.
  destruct (begin_round_finds_no_playback_timer all_up false
              (world_after (first_turn ++ [Press SEQ_BTN_UP])))
    as (_ & _ & Htr & _).
  - apply (play_reachable (first_turn ++ [Press SEQ_BTN_UP])).
    vm_compute. reflexivity.
  - destruct (Htr 4%nat (mkTimer 4 650 CbRoundTransition)) as [Hnone _].
    + reflexivity.
    + reflexivity.
    + exact Hnone.
Defined.

(** * The further properties at concrete inputs *)

Lemma round_is_length_witness :
  s_round (gm (world_after three_rounds)) =
  s_seq_len (gm (world_after three_rounds)).
Proof.
  destruct (round_is_length all_up false (world_after three_rounds))
    as [Hround _].
  - apply (play_reachable three_rounds). vm_compute. reflexivity.
  - exact Hround.
Defined.

Lemma steps_are_buttons_witness :
  exists v, s_sequence (gm (world_after three_rounds)) !! Z.to_nat 2 = Some v /\
            0 <= v <= 2.
Proof.
  destruct (steps_are_buttons all_up false (world_after three_rounds) 2)
    as (v & Hv & Hname & _).
  - apply (play_reachable three_rounds). vm_compute. reflexivity.
  - vm_compute. split; [discriminate | reflexivity].
  - exists v. split; [exact Hv | lia].
Defined.

Lemma show_duration_in_use_witness :
  405 <= s_show_ms_current (gm (world_after [Press SEQ_BTN_SELECT])) <= 700.
Proof.
  destruct (show_duration_in_use all_up false
              (world_after [Press SEQ_BTN_SELECT])) as [_ Hms].
  - apply (play_reachable [Press SEQ_BTN_SELECT]). vm_compute. reflexivity.
  - reflexivity.
  - exact Hms.
Defined.

Lemma info_layer_is_current_witness :
  last_info (out (world_after three_rounds)) =
  Some (info_text (gm (world_after three_rounds))).
Proof.
  apply (info_layer_is_current all_up false).
  apply (play_reachable three_rounds). vm_compute. reflexivity.
Defined.

Lemma never_stuck_witness :
  0 <= s_input_index (gm (world_after first_turn)) <
  s_seq_len (gm (world_after first_turn)).
Proof.
  destruct (never_stuck all_up false (world_after first_turn))
    as [[H _] | [[H _] | [[H _] | (_ & _ & _ & H)]]].
  - apply (play_reachable first_turn). vm_compute. reflexivity.
  - vm_compute in H. discriminate H.
  - vm_compute in H. discriminate H.
  - vm_compute in H. discriminate H.
  - exact H.
Defined.

Lemma sequence_append_only_witness :
  keeps_steps (world_after first_turn)
    (world_after (first_turn ++ [Press SEQ_BTN_UP])).
Proof.
  destruct (sequence_append_only all_up false (world_after first_turn)
              (world_after (first_turn ++ [Press SEQ_BTN_UP]))
              [Press SEQ_BTN_UP]) as [Hkeep _].
  - apply (play_reachable first_turn). vm_compute. reflexivity.
  - repeat constructor. discriminate.
  - vm_compute. reflexivity.
  - exact Hkeep.
Defined.

Lemma game_over_is_terminal_witness :
  gm (world_after (first_turn ++
                   [Press SEQ_BTN_DOWN; Press SEQ_BTN_UP; Press SEQ_BTN_DOWN])) =
  gm (world_after (first_turn ++ [Press SEQ_BTN_DOWN])).
Proof.
  apply (game_over_is_terminal all_up false
           (world_after (first_turn ++ [Press SEQ_BTN_DOWN])) _
           [Press SEQ_BTN_UP; Press SEQ_BTN_DOWN]).
  - apply (play_reachable (first_turn ++ [Press SEQ_BTN_DOWN])).
    vm_compute. reflexivity.
  - reflexivity.
  - repeat constructor; discriminate.
  - vm_compute. reflexivity.
Defined.

Lemma add_random_step_appends_witness :
  exists w', exec (add_random_step all_up) (world_after first_turn) = Some w' /\
             s_seq_len (gm w') = 2.
Proof.
  destruct (add_random_step_appends all_up (world_after first_turn))
    as [Hadd _].
  - reflexivity.
  - vm_compute. discriminate.
  - destruct Hadd as (v & _ & _ & Hexec & _).
    + vm_compute. reflexivity.
    + eexists. split; [exact Hexec | reflexivity].
Defined.

Lemma correct_press_advances_witness :
  exists w', step all_up false (world_after three_rounds) (Press SEQ_BTN_UP) =
             Some w' /\
             s_input_index (gm w') = 1.
Proof.
  destruct (correct_press_advances all_up false (world_after three_rounds)
              SEQ_BTN_UP) as (w' & Hstep & Hgm & _).
  - reflexivity.
  - reflexivity.
  - reflexivity.
  - vm_compute. discriminate.
  - vm_compute. reflexivity.
  - vm_compute. discriminate.
  - reflexivity.
  - vm_compute. constructor.
  - exists w'. split; [exact Hstep |]. rewrite Hgm. reflexivity.
Defined.

Lemma press_arms_glyph_timer_witness :
  exists w', step all_up false (world_after three_rounds) (Press SEQ_BTN_UP) =
             Some w' /\
             s_feedback_timer (hd w') =
             Some (next_handle (world_after three_rounds)).
Proof.
  destruct (press_arms_glyph_timer all_up false (world_after three_rounds)
              SEQ_BTN_UP) as (w' & Hstep & Hslot & _).
  - apply (play_reachable three_rounds). vm_compute. reflexivity.
  - reflexivity.
  - reflexivity.
  - reflexivity.
  - exists w'. split; [exact Hstep | exact Hslot].
Defined.

Lemma flash_runs_its_cycles_witness :
  exists w0 w', exec (start_flash_animation false 3) (world_after first_turn) =
                Some w0 /\
                flash_ticks all_up false 3 w0 = Some w' /\
                s_flash_timer (hd w') = None.
Proof.
  destruct (flash_runs_its_cycles all_up false (world_after first_turn) 3)
    as (w0 & Hexec & _ & _ & _ & w' & Hticks & Hslot & _).
  - vm_compute. constructor.
  - exists w0, w'. split; [exact Hexec |]. split; [exact Hticks | exact Hslot].
Defined.

Lemma transition_delay_and_flash_witness :
  exists w', exec (start_round_transition false) (world_after first_turn) =
             Some w' /\
             s_transition_timer (hd w') =
             Some (S (next_handle (world_after first_turn))).
Proof.
  destruct (transition_delay_and_flash false (world_after first_turn))
    as (w' & Hexec & _ & _ & Hslot & _).
  - vm_compute. constructor.
  - reflexivity.
  - exists w'. split; [exact Hexec | exact Hslot].
Defined.

Lemma unload_leaves_prompt_timers_witness :
  exists w', exec prv_window_unload
               (world_after (three_rounds ++ [Press SEQ_BTN_UP])) = Some w' /\
             hd w' = mkHandles None None None None.
Proof.
  destruct (unload_leaves_prompt_timers all_up false
              (world_after (three_rounds ++ [Press SEQ_BTN_UP])))
    as (w' & Hexec & Hhd & _).
  - apply (play_reachable (three_rounds ++ [Press SEQ_BTN_UP])).
    vm_compute. reflexivity.
  - exists w'. split; [exact Hexec | exact Hhd].
Defined.

Lemma handles_never_dangle_witness :
  NoDup (map t_handle
           (pending (world_after (three_rounds ++ [Press SEQ_BTN_UP])))).
Proof.
  destruct (handles_never_dangle all_up false
              (world_after (three_rounds ++ [Press SEQ_BTN_UP])))
    as (_ & _ & Hnd & _).
  - apply (play_reachable (three_rounds ++ [Press SEQ_BTN_UP])).
    vm_compute. reflexivity.
  - exact Hnd.
Defined.

Lemma layout_frames_stack_witness :
  0 <= ry (title_frame (layout_frames 144 168 false 1)) /\
  bottom (info_frame (layout_frames 144 168 false 1)) <= 168.
Proof.
  destruct (layout_frames_stack (world_after first_turn) 144 168)
    as (_ & _ & _ & _ & Htitle & Hinfo & _).
  - lia.
  - split; [exact Htitle | exact Hinfo].
Defined.
